(** * Rules core of the hepek chess engine (src/rules.h, src/rules.cpp)

    A shallow embedding of [chess::GameState] and of the three [Move]
    classes.  Bitboards ([unsigned long long]) are integers in [0, 2^64) with
    the wrap-around of unary minus and of [~] written out; squares are [int].
    Code that can abort (a failed [assert], a thrown exception) or whose
    behaviour C++ leaves undefined (a shift count outside 0..63, control
    reaching the end of a value-returning function, signed overflow, the
    constructor call on a cast array) runs in the [outcome] monad; [while]
    loops whose termination is not evident take fuel. *)

From Stdlib Require Import ZArith List Bool Lia.
Import ListNotations.
Local Open Scope Z_scope.

Module Chess.

(** ** rules.h: types *)

Definition bitmap := Z.
Definition square := Z.
Definition INVALID_SQUARE : square := -1.

Inductive Player := WHITE | BLACK.
Inductive Piece := KING | QUEEN | ROOK | BISHOP | KNIGHT | PAWN.
Inductive CastlingVariant := KING_SIDE | QUEEN_SIDE.

(** [static_cast<Player>(p ^ 1)] *)
Definition other (p : Player) : Player :=
  match p with WHITE => BLACK | BLACK => WHITE end.

Definition Player_eqb (a b : Player) : bool :=
  match a, b with WHITE, WHITE | BLACK, BLACK => true | _, _ => false end.

Definition Piece_eqb (a b : Piece) : bool :=
  match a, b with
  | KING, KING | QUEEN, QUEEN | ROOK, ROOK
  | BISHOP, BISHOP | KNIGHT, KNIGHT | PAWN, PAWN => true
  | _, _ => false
  end.

(** The index range of [for (int i = 0; i < 6; ++i)], as piece kinds. *)
Definition all_pieces : list Piece := [KING; QUEEN; ROOK; BISHOP; KNIGHT; PAWN].

(** Conversion to [unsigned long long]. *)
Definition u64 (x : Z) : bitmap := x mod 2 ^ 64.

Definition INT_MAX : Z := 2 ^ 31 - 1.

(** ** Outcomes of a call *)

Inductive fault :=
| AssertionFailure   (* a failed assert *)
| LogicError         (* throw std::logic_error *)
| RuntimeError       (* throw std::runtime_error *)
| Undefined          (* undefined behaviour *)
| OutOfFuel.         (* a loop that has not finished within its fuel *)

Inductive outcome (A : Type) :=
| Val (a : A)
| Fault (f : fault).
Arguments Val {A} a.
Arguments Fault {A} f.

Definition bind {A B : Type} (c : outcome A) (k : A -> outcome B) : outcome B :=
  match c with
  | Val a => k a
  | Fault f => Fault f
  end.

Notation "x <- c ;; k" := (bind c (fun x => k))
  (at level 61, c at next level, right associativity).

Definition assert (b : bool) : outcome unit :=
  if b then Val tt else Fault AssertionFailure.

Definition is_val {A : Type} (c : outcome A) : bool :=
  match c with Val _ => true | Fault _ => false end.

(** [1ULL << q]: undefined unless [0 <= q < 64]. *)
Definition shl1 (q : Z) : outcome bitmap :=
  if (0 <=? q) && (q <? 64) then Val (2 ^ q) else Fault Undefined.

(** [a + b] on [int]: undefined on overflow. *)
Definition int_add (a b : Z) : outcome Z :=
  if (- 2 ^ 31 <=? a + b) && (a + b <=? INT_MAX) then Val (a + b)
  else Fault Undefined.

(** ** rules.h: the board and the position *)

(** One row of [bitmap pieces[2][6]]. *)
Record Row := mkRow {
  m_king : bitmap; m_queen : bitmap; m_rook : bitmap;
  m_bishop : bitmap; m_knight : bitmap; m_pawn : bitmap
}.

Record Board := mkBoard { row_white : Row; row_black : Row }.

Definition row_get (r : Row) (k : Piece) : bitmap :=
  match k with
  | KING => m_king r | QUEEN => m_queen r | ROOK => m_rook r
  | BISHOP => m_bishop r | KNIGHT => m_knight r | PAWN => m_pawn r
  end.

Definition row_set (r : Row) (k : Piece) (v : bitmap) : Row :=
  match k with
  | KING => mkRow v (m_queen r) (m_rook r) (m_bishop r) (m_knight r) (m_pawn r)
  | QUEEN => mkRow (m_king r) v (m_rook r) (m_bishop r) (m_knight r) (m_pawn r)
  | ROOK => mkRow (m_king r) (m_queen r) v (m_bishop r) (m_knight r) (m_pawn r)
  | BISHOP => mkRow (m_king r) (m_queen r) (m_rook r) v (m_knight r) (m_pawn r)
  | KNIGHT => mkRow (m_king r) (m_queen r) (m_rook r) (m_bishop r) v (m_pawn r)
  | PAWN => mkRow (m_king r) (m_queen r) (m_rook r) (m_bishop r) (m_knight r) v
  end.

(** [pieces[p][k]] *)
Definition mask (b : Board) (p : Player) (k : Piece) : bitmap :=
  match p with
  | WHITE => row_get (row_white b) k
  | BLACK => row_get (row_black b) k
  end.

(** [pieces[p][k] = v] *)
Definition set_mask (b : Board) (p : Player) (k : Piece) (v : bitmap) : Board :=
  match p with
  | WHITE => mkBoard (row_set (row_white b) k v) (row_black b)
  | BLACK => mkBoard (row_white b) (row_set (row_black b) k v)
  end.

(** [bool flag[2]] *)
Record Flags := mkFlags { flag_white : bool; flag_black : bool }.

Definition flag (f : Flags) (p : Player) : bool :=
  match p with WHITE => flag_white f | BLACK => flag_black f end.

Definition set_flag (f : Flags) (p : Player) (v : bool) : Flags :=
  match p with
  | WHITE => mkFlags v (flag_black f)
  | BLACK => mkFlags (flag_white f) v
  end.

Record GameState := mkGameState {
  to_move : Player;
  pieces : Board;
  half_move_counter : Z;
  can_castle_king_side : Flags;
  can_castle_queen_side : Flags;
  en_passant_square : square
}.

(** The six-argument constructor, as the three transform bodies call it:
    its second argument is the local [bitmap pieces[2][6]], cast to a
    pointer to pointers to bitmap.  The constructor evaluates
    [&pieces[0][0]] on that pointer: it loads the first word of the array,
    the white king mask, as an address and copies twelve words from there.
    The behaviour is undefined, whatever the arguments. *)
Definition GameState_from_cast (to_move' : Player) (pieces' : Board)
           (half_move_counter' : Z)
           (can_castle_king_side' can_castle_queen_side' : Flags)
           (en_passant_square' : square) : outcome GameState :=
  Fault Undefined.

Inductive Move :=
| NormalMove (start finish : square) (piece : Piece) (mover : Player)
             (is_capture : bool)
| PromotionMove (start finish : square) (mover : Player)
                (promoted_piece : Piece)
| CastlingMove (variant : CastlingVariant) (mover : Player).

(** ** GameState::GameState() *)

Definition bits (l : list Z) : bitmap :=
  fold_left (fun acc i => Z.lor acc (2 ^ i)) l 0.

Definition initial_board : Board :=
  mkBoard
    (mkRow (bits [4]) (bits [3]) (bits [0; 7]) (bits [2; 5]) (bits [1; 6])
           (bits [8; 9; 10; 11; 12; 13; 14; 15]))
    (mkRow (bits [60]) (bits [59]) (bits [56; 63]) (bits [58; 61])
           (bits [57; 62])
           (bits [55; 54; 53; 52; 51; 50; 49; 48])).

Definition initial_state : GameState :=
  mkGameState WHITE initial_board 0 (mkFlags true true) (mkFlags true true)
              INVALID_SQUARE.

(** ** GameState::get_lowest_bit *)

Fixpoint lowest_bit_loop (fuel : nat) (lowest_power_of_two : bitmap)
         (lowest_bit : square) : square :=
  match fuel with
  | O => lowest_bit
  | S fuel' =>
      if 0 <? lowest_power_of_two
      then lowest_bit_loop fuel' (Z.shiftr lowest_power_of_two 1)
                           (lowest_bit + 1)
      else lowest_bit
  end.

(** A 64-bit value is zero after at most 64 right shifts, so 65 rounds of
    the loop test are enough (lemma [lowest_bit_loop_pow2]). *)
Definition get_lowest_bit (map : bitmap) : square :=
  lowest_bit_loop 65 (Z.land map (u64 (- map))) 0.

(** ** GameState::get_occupancy_map *)

Definition get_occupancy_map (s : GameState) : bitmap :=
  fold_left
    (fun mask_acc i =>
       Z.lor mask_acc (Z.lor (mask (pieces s) WHITE i) (mask (pieces s) BLACK i)))
    all_pieces 0.

(** ** GameState::is_occupied and GameState::square_ownership *)

Definition nonzero (x : Z) : bool := negb (x =? 0).

Fixpoint is_occupied_from (s : GameState) (query : square) (l : list Piece)
  : outcome bool :=
  match l with
  | [] => Val false
  | i :: rest =>
      b <- shl1 query ;;
      if nonzero (Z.land (mask (pieces s) WHITE i) b) then Val true
      else if nonzero (Z.land (mask (pieces s) BLACK i) b) then Val true
      else is_occupied_from s query rest
  end.

Definition is_occupied (s : GameState) (query : square) : outcome bool :=
  is_occupied_from s query all_pieces.

Fixpoint square_ownership_from (s : GameState) (query : square)
         (l : list Piece) : outcome Player :=
  match l with
  | [] => Fault LogicError
  | i :: rest =>
      b <- shl1 query ;;
      if nonzero (Z.land (mask (pieces s) WHITE i) b) then Val WHITE
      else if nonzero (Z.land (mask (pieces s) BLACK i) b) then Val BLACK
      else square_ownership_from s query rest
  end.

Definition square_ownership (s : GameState) (query : square) : outcome Player :=
  square_ownership_from s query all_pieces.

Definition get_king_position (s : GameState) (player : Player) : square :=
  get_lowest_bit (mask (pieces s) player KING).

(** ** Move::transform *)

(** [for (i < 6) pieces[victim][i] &= ~(1ULL << finish)], with [bit] the
    shifted one. *)
Fixpoint clear_captured (b : Board) (victim : Player) (bit : bitmap)
         (l : list Piece) : Board :=
  match l with
  | [] => b
  | i :: rest =>
      clear_captured
        (set_mask b victim i (Z.land (mask b victim i) (u64 (Z.lnot bit))))
        victim bit rest
  end.

Definition king_side_rook_square (p : Player) : square :=
  match p with WHITE => 7 | BLACK => 63 end.

Definition queen_side_rook_square (p : Player) : square :=
  match p with WHITE => 0 | BLACK => 56 end.

(** The flag array after
    [if ((pieces[mover][ROOK] & (1ULL << rook_square)) == 0) flag[mover] = false]. *)
Definition revoke_without_rook (f : Flags) (b : Board) (mover : Player)
           (rook_square : square) : Flags :=
  if Z.land (mask b mover ROOK) (2 ^ rook_square) =? 0
  then set_flag f mover false
  else f.

Definition NormalMove_transform (start finish : square) (piece : Piece)
           (is_capture : bool) (state : GameState) : outcome GameState :=
  let mover := to_move state in
  let to_move' := other mover in
  pieces1 <- (if is_capture
              then bf <- shl1 finish ;;
                   Val (clear_captured (pieces state) (other mover) bf all_pieces)
              else Val (pieces state)) ;;
  bs <- shl1 start ;;
  let pieces2 := set_mask pieces1 mover piece
                          (Z.lxor (mask pieces1 mover piece) bs) in
  bf <- shl1 finish ;;
  let pieces3 := set_mask pieces2 mover piece
                          (Z.lor (mask pieces2 mover piece) bf) in
  half_move_counter' <-
    (if is_capture || Piece_eqb piece PAWN then Val 0
     else int_add (half_move_counter state) 1) ;;
  let can_castle_king_side' :=
    revoke_without_rook (can_castle_king_side state) pieces3 mover
                        (king_side_rook_square mover) in
  let can_castle_queen_side' :=
    revoke_without_rook (can_castle_queen_side state) pieces3 mover
                        (queen_side_rook_square mover) in
  let en_passant_square' :=
    if Piece_eqb piece PAWN then
      if Z.abs (finish - start) =? 16 then Z.min start finish + 8
      else INVALID_SQUARE
    else INVALID_SQUARE in
  GameState_from_cast to_move' pieces3 half_move_counter'
                      can_castle_king_side' can_castle_queen_side'
                      en_passant_square'.

(** The constructor of PromotionMove fixes [piece] to [PAWN] and
    [is_capture] to [false], so [assert(piece == Piece::PAWN)] holds. *)
Definition PromotionMove_transform (start finish : square)
           (promoted_piece : Piece) (state : GameState) : outcome GameState :=
  let mover := to_move state in
  let to_move' := other mover in
  bs <- shl1 start ;;
  let pieces1 := set_mask (pieces state) mover PAWN
                          (Z.lxor (mask (pieces state) mover PAWN) bs) in
  bf <- shl1 finish ;;
  let pieces2 := set_mask pieces1 mover promoted_piece
                          (Z.lor (mask pieces1 mover promoted_piece) bf) in
  GameState_from_cast to_move' pieces2 0 (can_castle_king_side state)
                      (can_castle_queen_side state) INVALID_SQUARE.

Definition CastlingMove_transform (variant : CastlingVariant)
           (state : GameState) : outcome GameState :=
  let mover := to_move state in
  let to_move' := other mover in
  let king_square := match mover with WHITE => 4 | BLACK => 60 end in
  squares <-
    match variant with
    | KING_SIDE =>
        _ <- assert (flag (can_castle_king_side state) mover) ;;
        let rook_square := king_side_rook_square mover in
        Val (rook_square, king_square + 2, rook_square - 2)
    | QUEEN_SIDE =>
        _ <- assert (flag (can_castle_queen_side state) mover) ;;
        let rook_square := queen_side_rook_square mover in
        Val (rook_square, king_square - 2, rook_square + 3)
    end ;;
  let '(rook_square, new_king_square, new_rook_square) := squares in
  bk <- shl1 king_square ;;
  let pieces1 := set_mask (pieces state) mover KING
                          (Z.lxor (mask (pieces state) mover KING) bk) in
  bnk <- shl1 new_king_square ;;
  let pieces2 := set_mask pieces1 mover KING
                          (Z.lor (mask pieces1 mover KING) bnk) in
  br <- shl1 rook_square ;;
  let pieces3 := set_mask pieces2 mover ROOK
                          (Z.lxor (mask pieces2 mover ROOK) br) in
  bnr <- shl1 new_rook_square ;;
  let pieces4 := set_mask pieces3 mover ROOK
                          (Z.lor (mask pieces3 mover ROOK) bnr) in
  half_move_counter' <- int_add (half_move_counter state) 1 ;;
  let can_castle_king_side' :=
    set_flag (can_castle_king_side state) mover false in
  let can_castle_queen_side' :=
    set_flag (can_castle_queen_side state) mover false in
  GameState_from_cast to_move' pieces4 half_move_counter'
                      can_castle_king_side' can_castle_queen_side'
                      INVALID_SQUARE.

(** Virtual dispatch of [move->transform(state)].  The [to_move] field a
    move stores is read by none of the three bodies. *)
Definition transform (m : Move) (state : GameState) : outcome GameState :=
  match m with
  | NormalMove start finish piece _ is_capture =>
      NormalMove_transform start finish piece is_capture state
  | PromotionMove start finish _ promoted_piece =>
      PromotionMove_transform start finish promoted_piece state
  | CastlingMove variant _ => CastlingMove_transform variant state
  end.

(** ** The geometry generator *)

Section Rules.

(** [span_pawn], [span_jumping] and [span_sliding] declare
    [bitmap span_mask;] without an initialiser and only ever or bits into
    it.  Its initial content is indeterminate; it is a parameter of the
    model. *)
Variable indeterminate : bitmap.

Definition direction_modifier (player : Player) : Z :=
  match player with WHITE => 1 | BLACK => -1 end.

(** [pieces[player][piece_type] & (1ULL << start)], as asserted on entry
    of every span function. *)
Definition holds (s : GameState) (player : Player) (piece_type : Piece)
           (start : square) : outcome bool :=
  b <- shl1 start ;;
  Val (nonzero (Z.land (mask (pieces s) player piece_type) b)).

(** [!is_occupied(current) || square_ownership(current) != player] *)
Definition free_or_enemy (s : GameState) (current : square)
           (player : Player) : outcome bool :=
  occ <- is_occupied s current ;;
  if negb occ then Val true
  else owner <- square_ownership s current ;;
       Val (negb (Player_eqb owner player)).

(** [is_occupied(finish) && square_ownership(finish) != player] *)
Definition holds_enemy (s : GameState) (finish : square)
           (player : Player) : outcome bool :=
  occ <- is_occupied s finish ;;
  if occ then owner <- square_ownership s finish ;;
              Val (negb (Player_eqb owner player))
  else Val false.

(** *** span_jumping, span_king, span_knight *)

Fixpoint span_jumping_loop (s : GameState) (start : square)
         (player : Player) (offsets : list Z) (span_mask : bitmap)
  : outcome bitmap :=
  match offsets with
  | [] => Val span_mask
  | off :: rest =>
      let current := start + off in
      if (0 <=? current) && (current <=? 63) then
        ok <- free_or_enemy s current player ;;
        if ok then
          b <- shl1 current ;;
          span_jumping_loop s start player rest (Z.lor span_mask b)
        else span_jumping_loop s start player rest span_mask
      else span_jumping_loop s start player rest span_mask
  end.

Definition span_jumping (s : GameState) (start : square) (player : Player)
           (direction_offset : list Z) (piece_type : Piece)
  : outcome bitmap :=
  here <- holds s player piece_type start ;;
  _ <- assert here ;;
  span_jumping_loop s start player (firstn 8 direction_offset)
                    indeterminate.

Definition king_offsets : list Z := [-1; 7; 8; 9; 1; -7; -8; -9].
Definition knight_offsets : list Z := [6; 15; 17; 10; -6; -15; -17; -10].

Definition span_king (s : GameState) (start : square) (player : Player) :=
  span_jumping s start player king_offsets KING.

Definition span_knight (s : GameState) (start : square) (player : Player) :=
  span_jumping s start player knight_offsets KNIGHT.

(** *** span_sliding, span_queen, span_rook, span_bishop *)

(** The [while (true)] walk along one direction, entered with [current]
    still on the previous square. *)
Fixpoint ray (fuel : nat) (s : GameState) (player : Player) (off : Z)
         (current : square) (span_mask : bitmap) : outcome bitmap :=
  match fuel with
  | O => Fault OutOfFuel
  | S fuel' =>
      let current := current + off in
      if (current <? 0) || (63 <? current) then Val span_mask
      else
        occ <- is_occupied s current ;;
        if occ then
          owner <- square_ownership s current ;;
          if negb (Player_eqb owner player)
          then b <- shl1 current ;; Val (Z.lor span_mask b)
          else Val span_mask
        else ray fuel' s player off current span_mask
  end.

Fixpoint span_sliding_loop (s : GameState) (start : square)
         (player : Player) (offsets : list Z) (span_mask : bitmap)
  : outcome bitmap :=
  match offsets with
  | [] => Val span_mask
  | off :: rest =>
      span_mask' <- ray 64 s player off start span_mask ;;
      span_sliding_loop s start player rest span_mask'
  end.

Definition num_directions (piece_type : Piece) : nat :=
  match piece_type with QUEEN => 8%nat | _ => 4%nat end.

Definition span_sliding (s : GameState) (start : square) (player : Player)
           (direction_offset : list Z) (piece_type : Piece)
  : outcome bitmap :=
  here <- holds s player piece_type start ;;
  _ <- assert here ;;
  span_sliding_loop s start player
                    (firstn (num_directions piece_type) direction_offset)
                    indeterminate.

Definition queen_offsets : list Z := [-1; 7; 8; 9; 1; -7; -8; -9].
Definition rook_offsets : list Z := [-1; 8; 1; -8].
Definition bishop_offsets : list Z := [7; 9; -7; -9].

Definition span_queen (s : GameState) (start : square) (player : Player) :=
  span_sliding s start player queen_offsets QUEEN.

Definition span_rook (s : GameState) (start : square) (player : Player) :=
  span_sliding s start player rook_offsets ROOK.

Definition span_bishop (s : GameState) (start : square) (player : Player) :=
  span_sliding s start player bishop_offsets BISHOP.

(** *** span_pawn *)

(** The capture loop over [direction_offset[] = {7, 9}]; the source writes
    [span_mask |= finish]. *)
Fixpoint pawn_captures (s : GameState) (start : square) (player : Player)
         (offsets : list Z) (span_mask : bitmap) : outcome bitmap :=
  match offsets with
  | [] => Val span_mask
  | off :: rest =>
      let finish := start + direction_modifier player * off in
      enemy <- holds_enemy s finish player ;;
      if enemy || (finish =? en_passant_square s)
      then pawn_captures s start player rest (Z.lor span_mask (u64 finish))
      else pawn_captures s start player rest span_mask
  end.

Definition on_starting_rank (player : Player) (start : square) : bool :=
  match player with
  | WHITE => (8 <=? start) && (start <? 16)
  | BLACK => (48 <=? start) && (start <? 56)
  end.

Definition span_pawn (s : GameState) (start : square) (player : Player)
  : outcome bitmap :=
  here <- holds s player PAWN start ;;
  _ <- assert here ;;
  let span_mask := indeterminate in
  let finish := start + direction_modifier player * 8 in
  occ <- is_occupied s finish ;;
  let span_mask := if negb occ then Z.lor span_mask (u64 finish)
                   else span_mask in
  let can_move_forward := negb occ in
  span_mask <- pawn_captures s start player [7; 9] span_mask ;;
  if on_starting_rank player start then
    let finish := start + direction_modifier player * 16 in
    if can_move_forward then
      occ2 <- is_occupied s finish ;;
      Val (if negb occ2 then Z.lor span_mask (u64 finish) else span_mask)
    else Val span_mask
  else Val span_mask.

(** *** span: the assertion looks at [pieces[to_move]], not at
    [pieces[player]].  The closing [throw] is unreachable: the match on
    the six kinds is exhaustive. *)
Definition span (s : GameState) (start : square) (player : Player)
           (piece_type : Piece) : outcome bitmap :=
  here <- holds s (to_move s) piece_type start ;;
  _ <- assert here ;;
  match piece_type with
  | KING => span_king s start player
  | QUEEN => span_queen s start player
  | ROOK => span_rook s start player
  | BISHOP => span_bishop s start player
  | KNIGHT => span_knight s start player
  | PAWN => span_pawn s start player
  end.

(** ** The attack map *)

Definition attacking_pawn (s : GameState) (start : square) (player : Player)
  : outcome bitmap :=
  here <- holds s player PAWN start ;;
  _ <- assert here ;;
  l <- shl1 (start + direction_modifier player * 7) ;;
  r <- shl1 (start + direction_modifier player * 9) ;;
  Val (Z.lor l r).

Definition attacking (s : GameState) (start : square) (player : Player)
           (piece : Piece) : outcome bitmap :=
  if negb (Piece_eqb piece PAWN) then span s start player piece
  else attacking_pawn s start player.

(** The [while (piece_locations > 0)] loop of get_attack_map. *)
Fixpoint attack_scan (fuel : nat) (s : GameState) (player : Player)
         (piece_type : Piece) (piece_locations attack_map : bitmap)
  : outcome bitmap :=
  match fuel with
  | O => Fault OutOfFuel
  | S fuel' =>
      if 0 <? piece_locations then
        let start := get_lowest_bit piece_locations in
        piece_attack <- attacking s start player piece_type ;;
        b <- shl1 start ;;
        attack_scan fuel' s player piece_type (Z.lxor piece_locations b)
                    (Z.lor attack_map piece_attack)
      else Val attack_map
  end.

Fixpoint attack_pieces (fuel : nat) (s : GameState) (player : Player)
         (l : list Piece) (attack_map : bitmap) : outcome bitmap :=
  match l with
  | [] => Val attack_map
  | i :: rest =>
      attack_map' <- attack_scan fuel s player i (mask (pieces s) player i)
                                 attack_map ;;
      attack_pieces fuel s player rest attack_map'
  end.

(** The body of get_attack_map ends after the [for] loop: there is no
    [return] statement, and the declared return type is [square]. *)
Definition get_attack_map (fuel : nat) (s : GameState) (player : Player)
  : outcome square :=
  _ <- attack_pieces fuel s player all_pieces 0 ;;
  Fault Undefined.

(** ** The enumerator and the terminal-state queries *)

Section Enumerator.

(** get_attack_map never executes a [return] (see [get_attack_map]
    above), so the value its callers read from the call is indeterminate.
    The callers are modelled over [attack_map_of state player], the
    content of their local [attack_map] after the call
    [state.get_attack_map(player)]. *)
Variable attack_map_of : GameState -> Player -> outcome bitmap.

Definition in_check_after_move (s : GameState) (move : Move)
  : outcome bool :=
  new_state <- transform move s ;;
  attack_map <- attack_map_of new_state (other (to_move s)) ;;
  let king_position := get_king_position new_state (to_move s) in
  b <- shl1 king_position ;;
  Val (nonzero (Z.land attack_map b)).

Definition king_side_castling_conditions_satisfied (s : GameState)
  : outcome bool :=
  let '(in_between_squares, passing_squares) :=
    match to_move s with
    | WHITE => (Z.lor (2 ^ 5) (2 ^ 6),
                Z.lor (Z.lor (2 ^ 4) (2 ^ 5)) (2 ^ 6))
    | BLACK => (Z.lor (2 ^ 61) (2 ^ 62),
                Z.lor (2 ^ 60) (2 ^ 61))
    end in
  attack_map <- attack_map_of s (other (to_move s)) ;;
  let occupancy_map := get_occupancy_map s in
  if nonzero (Z.land passing_squares attack_map) then Val false
  else if nonzero (Z.land in_between_squares occupancy_map) then Val false
  else if negb (flag (can_castle_king_side s) (to_move s)) then Val false
  else Val true.

Definition queen_side_castling_conditions_satisfied (s : GameState)
  : outcome bool :=
  let '(in_between_squares, passing_squares) :=
    match to_move s with
    | WHITE => (Z.lor (Z.lor (2 ^ 1) (2 ^ 2)) (2 ^ 3),
                Z.lor (Z.lor (2 ^ 2) (2 ^ 3)) (2 ^ 4))
    | BLACK => (Z.lor (Z.lor (2 ^ 57) (2 ^ 58)) (2 ^ 59),
                Z.lor (Z.lor (2 ^ 58) (2 ^ 59)) (2 ^ 60))
    end in
  attack_map <- attack_map_of s (other (to_move s)) ;;
  let occupancy_map := get_occupancy_map s in
  if nonzero (Z.land passing_squares attack_map) then Val false
  else if nonzero (Z.land in_between_squares occupancy_map) then Val false
  else if negb (flag (can_castle_queen_side s) (to_move s)) then Val false
  else Val true.

(** [if (!in_check_after_move(m)) valid_moves.emplace_back(m)] *)
Definition keep_if_legal (s : GameState) (m : Move)
           (valid_moves : list Move) : outcome (list Move) :=
  in_check <- in_check_after_move s m ;;
  Val (if negb in_check then valid_moves ++ [m] else valid_moves).

Fixpoint promotion_candidates (s : GameState) (start finish : square)
         (kinds : list Piece) (valid_moves : list Move)
  : outcome (list Move) :=
  match kinds with
  | [] => Val valid_moves
  | promoted_piece :: rest =>
      valid_moves' <-
        keep_if_legal s (PromotionMove start finish (to_move s) promoted_piece)
                      valid_moves ;;
      promotion_candidates s start finish rest valid_moves'
  end.

(** The candidate of the [else] branch: [is_capture] is
    [is_occupied(finish)]. *)
Definition normal_candidate (s : GameState) (start finish : square)
           (piece_type : Piece) : outcome Move :=
  is_capture <- is_occupied s finish ;;
  Val (NormalMove start finish piece_type (to_move s) is_capture).

(** The [while (piece_span > 0)] loop; it ends with
    [piece_span ^= finish]. *)
Fixpoint span_scan (fuel : nat) (s : GameState) (start : square)
         (piece_type : Piece) (piece_span : bitmap)
         (valid_moves : list Move) : outcome (list Move) :=
  match fuel with
  | O => Fault OutOfFuel
  | S fuel' =>
      if 0 <? piece_span then
        let finish := get_lowest_bit piece_span in
        valid_moves' <-
          (if Piece_eqb piece_type PAWN
              && ((finish <? 8) || (56 <=? finish))
           then promotion_candidates s start finish
                                     [QUEEN; ROOK; BISHOP; KNIGHT]
                                     valid_moves
           else candidate_move <- normal_candidate s start finish piece_type ;;
                keep_if_legal s candidate_move valid_moves) ;;
        span_scan fuel' s start piece_type
                  (Z.lxor piece_span (u64 finish)) valid_moves'
      else Val valid_moves
  end.

(** The [while (piece_locations > 0)] loop of get_valid_moves. *)
Fixpoint location_scan (fuel fuel_span : nat) (s : GameState)
         (piece_type : Piece) (piece_locations : bitmap)
         (valid_moves : list Move) : outcome (list Move) :=
  match fuel with
  | O => Fault OutOfFuel
  | S fuel' =>
      if 0 <? piece_locations then
        let start := get_lowest_bit piece_locations in
        piece_span <- span s start (to_move s) piece_type ;;
        valid_moves' <- span_scan fuel_span s start piece_type piece_span
                                  valid_moves ;;
        b <- shl1 start ;;
        location_scan fuel' fuel_span s piece_type
                      (Z.lxor piece_locations b) valid_moves'
      else Val valid_moves
  end.

Fixpoint piece_scan (fuel : nat) (s : GameState) (l : list Piece)
         (valid_moves : list Move) : outcome (list Move) :=
  match l with
  | [] => Val valid_moves
  | i :: rest =>
      valid_moves' <- location_scan fuel fuel s i
                                    (mask (pieces s) (to_move s) i)
                                    valid_moves ;;
      piece_scan fuel s rest valid_moves'
  end.

Definition get_valid_moves (fuel : nat) (s : GameState)
  : outcome (list Move) :=
  valid_moves <- piece_scan fuel s all_pieces [] ;;
  king_side <- king_side_castling_conditions_satisfied s ;;
  let valid_moves :=
    if king_side then valid_moves ++ [CastlingMove KING_SIDE (to_move s)]
    else valid_moves in
  queen_side <- queen_side_castling_conditions_satisfied s ;;
  let valid_moves :=
    if queen_side then valid_moves ++ [CastlingMove QUEEN_SIDE (to_move s)]
    else valid_moves in
  Val valid_moves.

Definition is_check (s : GameState) : outcome bool :=
  attack_map <- attack_map_of s (other (to_move s)) ;;
  let king_position := get_king_position s (to_move s) in
  b <- shl1 king_position ;;
  Val (nonzero (Z.land attack_map b)).

Definition empty {A : Type} (l : list A) : bool :=
  match l with [] => true | _ => false end.

(** [return !get_valid_moves().empty();] *)
Definition no_valid_moves (fuel : nat) (s : GameState) : outcome bool :=
  valid_moves <- get_valid_moves fuel s ;;
  Val (negb (empty valid_moves)).

(** [return is_check() && no_valid_moves();] *)
Definition is_checkmate (fuel : nat) (s : GameState) : outcome bool :=
  check <- is_check s ;;
  if check then no_valid_moves fuel s else Val false.

(** [return !is_check() && no_valid_moves();] *)
Definition is_stalemate (fuel : nat) (s : GameState) : outcome bool :=
  check <- is_check s ;;
  if negb check then no_valid_moves fuel s else Val false.

End Enumerator.

(** The callers linked with get_attack_map itself; the [int] it is
    declared to return is converted to [bitmap] at the call. *)
Definition attack_map_call (fuel : nat) (s : GameState) (player : Player)
  : outcome bitmap :=
  r <- get_attack_map fuel s player ;;
  Val (u64 r).

Definition run_get_valid_moves (fuel : nat) (s : GameState) :=
  get_valid_moves (attack_map_call fuel) fuel s.

Definition run_is_check (fuel : nat) (s : GameState) :=
  is_check (attack_map_call fuel) s.

Definition run_is_checkmate (fuel : nat) (s : GameState) :=
  is_checkmate (attack_map_call fuel) fuel s.

Definition run_is_stalemate (fuel : nat) (s : GameState) :=
  is_stalemate (attack_map_call fuel) fuel s.

End Rules.

(** * Vocabulary of the properties and example positions *)

Arguments mask : simpl never.

Ltac bind_inv H :=
  let a := fresh "v" in
  let Ha := fresh "Hv" in
  match type of H with
  | bind ?c _ = Val _ =>
      destruct c as [a|] eqn:Ha; [cbn [bind] in H | discriminate H]
  end.

Definition bit_at (s : GameState) (p : Player) (k : Piece) (q : square)
  : bool :=
  Z.testbit (mask (pieces s) p k) q.

Definition empty_row : Row := mkRow 0 0 0 0 0 0.

Definition empty_board_state : GameState :=
  mkGameState WHITE (mkBoard empty_row empty_row) 0
              (mkFlags false false) (mkFlags false false) INVALID_SQUARE.

Definition on_ray (start off n d : Z) : Prop :=
  1 <= n /\ d = start + n * off /\
  forall j, 1 <= j <= n -> 0 <= start + j * off <= 63.

Definition offsets_of (k : Piece) : list Z :=
  match k with
  | KING => king_offsets
  | QUEEN => queen_offsets
  | ROOK => rook_offsets
  | BISHOP => bishop_offsets
  | KNIGHT => knight_offsets
  | PAWN => []
  end.

Definition is_jumping (k : Piece) : bool :=
  match k with KING | KNIGHT => true | _ => false end.

Definition file (q : square) : Z := q mod 8.

(** White: Ka2, Ra3; Black: Ke8, Nh2; White to move. *)
Definition king_on_a2 : GameState :=
  mkGameState WHITE
    (mkBoard (mkRow (2 ^ 8) 0 (2 ^ 16) 0 0 0)
             (mkRow (2 ^ 60) 0 0 0 (2 ^ 15) 0))
    0 (mkFlags false false) (mkFlags false false) INVALID_SQUARE.

(** Every mask of the position is a 64-bit value. *)
Definition well_formed (s : GameState) : Prop :=
  forall p k, 0 <= mask (pieces s) p k < 2 ^ 64.

(** A square that holds no piece of [player]: it is empty, or
    square_ownership names the other side. *)
Definition no_friend_on (s : GameState) (player : Player) (d : square)
  : Prop :=
  is_occupied s d = Val false \/ square_ownership s d = Val (other player).

(** White: Ke1, Ra1; Black: Ke8, pawn a4 (24); White to move. *)
Definition rook_on_a1 : GameState :=
  mkGameState WHITE
    (mkBoard (mkRow (2 ^ 4) 0 (2 ^ 0) 0 0 0)
             (mkRow (2 ^ 60) 0 0 0 0 (2 ^ 24)))
    0 (mkFlags false false) (mkFlags false false) INVALID_SQUARE.

(** The squares of the two tests of the castling conditions, as the source
    lists them: the squares whose attack forbids castling and the squares
    that have to be empty. *)
Definition passing_squares_of (mover : Player) (variant : CastlingVariant)
  : list square :=
  match mover, variant with
  | WHITE, KING_SIDE => [4; 5; 6]
  | BLACK, KING_SIDE => [60; 61]
  | WHITE, QUEEN_SIDE => [2; 3; 4]
  | BLACK, QUEEN_SIDE => [58; 59; 60]
  end.

Definition in_between_squares_of (mover : Player) (variant : CastlingVariant)
  : list square :=
  match mover, variant with
  | WHITE, KING_SIDE => [5; 6]
  | BLACK, KING_SIDE => [61; 62]
  | WHITE, QUEEN_SIDE => [1; 2; 3]
  | BLACK, QUEEN_SIDE => [57; 58; 59]
  end.

(** The answer of the castling conditions, from the attack map, the
    occupancy map and the right. *)
Definition castling_allowed (attack_map occupancy_map : bitmap)
           (right : bool) (mover : Player) (variant : CastlingVariant)
  : bool :=
  negb (existsb (Z.testbit attack_map) (passing_squares_of mover variant))
  && negb (existsb (Z.testbit occupancy_map)
                   (in_between_squares_of mover variant))
  && right.

(** No piece on the board, all four rights; White to move. *)
Definition empty_board_with_rights : GameState :=
  mkGameState WHITE (mkBoard empty_row empty_row) 0
              (mkFlags true true) (mkFlags true true) INVALID_SQUARE.

(** Black: Ke8, Rh8, the right to castle king-side; White: Ke1; f8 and g8
    are empty and no white piece attacks e8, f8 or g8; Black to move. *)
Definition black_may_castle : GameState :=
  mkGameState BLACK
    (mkBoard (mkRow (2 ^ 4) 0 0 0 0 0) (mkRow (2 ^ 60) 0 (2 ^ 63) 0 0 0))
    0 (mkFlags false true) (mkFlags false false) INVALID_SQUARE.

(** * Properties *)

(** ** Bit-level facts *)

Lemma land_pow2 (m q : Z) :
  0 <= q -> Z.land m (2 ^ q) = if Z.testbit m q then 2 ^ q else 0.
Proof.
  intros Hq. apply Z.bits_inj'. intros n Hn.
  rewrite Z.land_spec, Z.pow2_bits_eqb by assumption.
  destruct (Z.eqb_spec q n) as [->|Hne].
  - destruct (Z.testbit m n); simpl.
    + now rewrite Z.pow2_bits_eqb, Z.eqb_refl by assumption.
    + now rewrite Z.bits_0.
  - rewrite andb_false_r. destruct (Z.testbit m q).
    + rewrite Z.pow2_bits_eqb by assumption.
      symmetry. now apply Z.eqb_neq.
    + now rewrite Z.bits_0.
Qed.

Lemma nonzero_land_pow2 (m q : Z) :
  0 <= q -> nonzero (Z.land m (2 ^ q)) = Z.testbit m q.
Proof.
  intros Hq. unfold nonzero. rewrite land_pow2 by assumption.
  destruct (Z.testbit m q); simpl.
  - assert (0 < 2 ^ q) by (apply Z.pow_pos_nonneg; lia).
    destruct (Z.eqb_spec (2 ^ q) 0); [lia | reflexivity].
  - reflexivity.
Qed.

Lemma shl1_val (q : Z) : 0 <= q <= 63 -> shl1 q = Val (2 ^ q).
Proof.
  intros H. unfold shl1.
  destruct (Z.leb_spec 0 q); [|lia]. destruct (Z.ltb_spec q 64); [|lia].
  reflexivity.
Qed.

Lemma shl1_inv (q : Z) (b : bitmap) :
  shl1 q = Val b -> 0 <= q <= 63 /\ b = 2 ^ q.
Proof.
  unfold shl1. destruct (Z.leb_spec 0 q); simpl; [|discriminate].
  destruct (Z.ltb_spec q 64); [|discriminate].
  intros [= <-]. split; [lia | reflexivity].
Qed.

Lemma testbit_split (a r j n : Z) :
  0 <= j -> 0 <= r < 2 ^ j -> 0 <= n ->
  Z.testbit (2 ^ j * a + r) n =
  if n <? j then Z.testbit r n else Z.testbit a (n - j).
Proof.
  intros Hj Hr Hn. assert (Hp : 0 < 2 ^ j) by (apply Z.pow_pos_nonneg; lia).
  destruct (Z.ltb_spec n j) as [Hlt|Hge].
  - rewrite <- (Z.mod_pow2_bits_low (2 ^ j * a + r) j n) by lia.
    f_equal. rewrite Z.add_comm, Z.mul_comm, Z.mod_add by lia.
    apply Z.mod_small; lia.
  - replace n with ((n - j) + j) at 1 by lia.
    rewrite <- Z.div_pow2_bits by lia. f_equal.
    rewrite Z.add_comm, Z.mul_comm, Z.div_add by lia.
    rewrite Z.div_small by lia. lia.
Qed.

(** ** get_lowest_bit *)

(** The isolated lowest bit needs [k + 1] shifts to vanish. *)
Lemma lowest_bit_loop_pow2 (k : nat) :
  forall (fuel : nat) (c : Z),
    (k < fuel)%nat ->
    lowest_bit_loop fuel (2 ^ Z.of_nat k) c = c + Z.of_nat k + 1.
Proof.
  induction k as [|k IH]; intros fuel c Hf.
  - destruct fuel as [|fuel]; [lia|]. simpl.
    destruct fuel; simpl; lia.
  - destruct fuel as [|fuel]; [lia|].
    cbn [lowest_bit_loop].
    assert (Hp : 0 < 2 ^ Z.of_nat (S k)) by (apply Z.pow_pos_nonneg; lia).
    destruct (Z.ltb_spec 0 (2 ^ Z.of_nat (S k))); [|lia].
    rewrite Z.shiftr_div_pow2 by lia.
    replace (2 ^ Z.of_nat (S k) / 2 ^ 1) with (2 ^ Z.of_nat k).
    + rewrite IH by lia. lia.
    + rewrite Nat2Z.inj_succ, Z.pow_succ_r by lia.
      rewrite Z.pow_1_r, Z.mul_comm, Z.div_mul by lia. reflexivity.
Qed.

(** A mask whose lowest set bit is [k] is [2^(k+1) * a + 2^k]. *)
Lemma lowest_bit_decompose (map k : Z) :
  0 <= k -> Z.testbit map k = true ->
  (forall j, 0 <= j < k -> Z.testbit map j = false) ->
  map = 2 ^ (k + 1) * (map / 2 ^ (k + 1)) + 2 ^ k.
Proof.
  intros Hk Hset Hlow.
  assert (Hp : 0 < 2 ^ (k + 1)) by (apply Z.pow_pos_nonneg; lia).
  rewrite (Z.div_mod map (2 ^ (k + 1))) at 1 by lia. f_equal.
  apply Z.bits_inj'. intros n Hn.
  rewrite Z.pow2_bits_eqb by lia.
  destruct (Z.ltb_spec n (k + 1)) as [Hlt|Hge].
  - rewrite Z.mod_pow2_bits_low by lia.
    destruct (Z.eqb_spec k n) as [->|Hne]; [assumption|].
    apply Hlow. lia.
  - rewrite Z.mod_pow2_bits_high by lia.
    symmetry. apply Z.eqb_neq. lia.
Qed.

Lemma land_neg_isolates (map k : Z) :
  0 <= k < 64 -> 0 <= map < 2 ^ 64 -> Z.testbit map k = true ->
  (forall j, 0 <= j < k -> Z.testbit map j = false) ->
  Z.land map (u64 (- map)) = 2 ^ k.
Proof.
  intros Hk Hm Hset Hlow.
  pose proof (lowest_bit_decompose map k (proj1 Hk) Hset Hlow) as Hdec.
  set (a := map / 2 ^ (k + 1)) in Hdec.
  assert (Hpk : 0 < 2 ^ k) by (apply Z.pow_pos_nonneg; lia).
  assert (Hpk1 : 2 ^ (k + 1) = 2 * 2 ^ k)
    by (rewrite Z.pow_add_r, Z.pow_1_r by lia; lia).
  apply Z.bits_inj'. intros n Hn. unfold u64.
  rewrite Z.land_spec, Z.pow2_bits_eqb by lia.
  destruct (Z.ltb_spec n 64) as [Hlt|Hge].
  - rewrite Z.mod_pow2_bits_low by lia.
    rewrite Z.bits_opp by lia.
    replace (Z.pred map) with (2 ^ (k + 1) * a + (2 ^ k - 1)) by lia.
    rewrite Hdec at 1.
    rewrite !testbit_split by lia.
    destruct (Z.ltb_spec n (k + 1)) as [Hlo|Hhi].
    + rewrite Z.pow2_bits_eqb by lia.
      replace (2 ^ k - 1) with (Z.ones k) by (rewrite Z.ones_equiv; lia).
      destruct (Z.eqb_spec k n) as [->|Hne].
      * rewrite Z.ones_spec_high by lia. reflexivity.
      * reflexivity.
    + destruct (Z.eqb_spec k n) as [->|Hne]; [lia|].
      apply andb_negb_r.
  - rewrite Z.mod_pow2_bits_high by lia. rewrite andb_false_r.
    symmetry. apply Z.eqb_neq. lia.
Qed.

(** C2: for a 64-bit mask whose least-significant set bit has index [k]
    (bit [k] set, every bit below clear), get_lowest_bit returns [k + 1],
    one more than the index: the loop counts the right shifts that bring
    the isolated bit down to zero. *)
Theorem get_lowest_bit_is_index_plus_one :
  forall (map k : Z),
    0 <= k < 64 -> 0 <= map < 2 ^ 64 -> Z.testbit map k = true ->
    (forall j, 0 <= j < k -> Z.testbit map j = false) ->
    get_lowest_bit map = k + 1.
Proof.
  intros map k Hk Hm Hset Hlow. unfold get_lowest_bit.
  rewrite (land_neg_isolates map k) by assumption.
  rewrite <- (Z2Nat.id k) by lia.
  rewrite lowest_bit_loop_pow2 by lia. lia.
Qed.

Lemma get_lowest_bit_is_index_plus_one_witness :
  Z.testbit 1 0 = true /\ get_lowest_bit 1 = 0 + 1.
Proof.
  split; [reflexivity|].
  apply (get_lowest_bit_is_index_plus_one 1 0);
    [lia | lia | reflexivity | intros j Hj; lia].
Defined.

Example get_lowest_bit_examples :
  get_lowest_bit 1 = 1 /\ get_lowest_bit 12 = 3 /\
  get_lowest_bit (2 ^ 63) = 64 /\ get_lowest_bit 0 = 0.
Proof. repeat split; reflexivity. Qed.

(** ** Outcomes *)

Lemma bind_val {A B : Type} (c : outcome A) (k : A -> outcome B) (v : B) :
  bind c k = Val v -> exists a, c = Val a /\ k a = Val v.
Proof.
  destruct c as [a|f]; simpl; [|discriminate]. intros H. now exists a.
Qed.

(** ** square_ownership and is_occupied *)

Lemma square_ownership_from_cases (s : GameState) (q : square)
      (l : list Piece) :
  0 <= q <= 63 ->
  (square_ownership_from s q l = Fault LogicError /\
   forall p k, In k l -> bit_at s p k q = false)
  \/
  (exists p k, square_ownership_from s q l = Val p /\ In k l /\
               bit_at s p k q = true).
Proof.
  intros Hq. unfold bit_at.
  induction l as [|i rest IH]; simpl.
  - left. split; [reflexivity | intros ? ? []].
  - rewrite shl1_val by assumption. simpl.
    rewrite !nonzero_land_pow2 by lia.
    destruct (Z.testbit (mask (pieces s) WHITE i) q) eqn:Hw.
    { right. exists WHITE, i. simpl. auto. }
    destruct (Z.testbit (mask (pieces s) BLACK i) q) eqn:Hb.
    { right. exists BLACK, i. simpl. auto. }
    destruct IH as [[Hf Hall]|(p & k & Hv & Hin & Hbit)].
    + left. split; [assumption|].
      intros p k [<-|Hin]; [destruct p; assumption | now apply Hall].
    + right. exists p, k. auto.
Qed.

Lemma is_occupied_from_cases (s : GameState) (q : square) (l : list Piece) :
  0 <= q <= 63 ->
  (is_occupied_from s q l = Val false /\
   forall p k, In k l -> bit_at s p k q = false)
  \/
  (is_occupied_from s q l = Val true /\
   exists p k, In k l /\ bit_at s p k q = true).
Proof.
  intros Hq. unfold bit_at.
  induction l as [|i rest IH]; simpl.
  - left. split; [reflexivity | intros ? ? []].
  - rewrite shl1_val by assumption. simpl.
    rewrite !nonzero_land_pow2 by lia.
    destruct (Z.testbit (mask (pieces s) WHITE i) q) eqn:Hw.
    { right. split; [reflexivity|]. exists WHITE, i. simpl. auto. }
    destruct (Z.testbit (mask (pieces s) BLACK i) q) eqn:Hb.
    { right. split; [reflexivity|]. exists BLACK, i. simpl. auto. }
    destruct IH as [[Hf Hall]|(Hv & p & k & Hin & Hbit)].
    + left. split; [assumption|].
      intros p k [<-|Hin]; [destruct p; assumption | now apply Hall].
    + right. split; [assumption|]. exists p, k. auto.
Qed.

Lemma in_all_pieces (k : Piece) : In k all_pieces.
Proof. destruct k; simpl; tauto. Qed.

Lemma is_occupied_total (s : GameState) (q : square) :
  0 <= q <= 63 -> exists occ, is_occupied s q = Val occ.
Proof.
  intros Hq. unfold is_occupied.
  destruct (is_occupied_from_cases s q all_pieces Hq) as [[H _]|[H _]];
    eauto.
Qed.

(** An occupied square has an owner: after [is_occupied] has answered
    [true], [square_ownership] does not throw. *)
Lemma owner_of_occupied (s : GameState) (q : square) :
  0 <= q <= 63 -> is_occupied s q = Val true ->
  exists p, square_ownership s q = Val p.
Proof.
  intros Hq Hocc. unfold is_occupied, square_ownership in *.
  destruct (is_occupied_from_cases s q all_pieces Hq)
    as [[H _]|(_ & p & k & Hin & Hbit)]; [congruence|].
  destruct (square_ownership_from_cases s q all_pieces Hq)
    as [[_ Hall]|(p' & k' & Hv & _)]; [|eauto].
  rewrite (Hall p k Hin) in Hbit. discriminate.
Qed.

(** C9: for a square 0..63, square_ownership throws std::logic_error exactly
    when none of the twelve masks has the square's bit set (and then
    is_occupied answers false); when some mask has the bit set it returns,
    without throwing, a side one of whose masks has that bit set. *)
Theorem square_ownership_throws_iff_unoccupied :
  forall (s : GameState) (q : square),
    0 <= q <= 63 ->
    (square_ownership s q = Fault LogicError <->
     (forall p k, bit_at s p k q = false)) /\
    (square_ownership s q = Fault LogicError <->
     is_occupied s q = Val false) /\
    ((exists p k, bit_at s p k q = true) ->
     exists p, square_ownership s q = Val p /\
               exists k, bit_at s p k q = true).
Proof.
  intros s q Hq. unfold square_ownership, is_occupied.
  destruct (square_ownership_from_cases s q all_pieces Hq)
    as [[Hf Hall]|(p & k & Hv & Hin & Hbit)];
  destruct (is_occupied_from_cases s q all_pieces Hq)
    as [[Ho Hall']|(Ho & p' & k' & Hin' & Hbit')].
  - repeat split; auto.
    + intros _ p k. apply Hall, in_all_pieces.
    + intros (p & k & Hbit).
      rewrite (Hall p k (in_all_pieces k)) in Hbit. discriminate.
  - rewrite (Hall p' k' Hin') in Hbit'. discriminate.
  - rewrite (Hall' p k Hin) in Hbit. discriminate.
  - rewrite Hv, Ho. repeat split; try discriminate.
    + intros H. rewrite (H p k) in Hbit. discriminate.
    + intros _. exists p. split; [reflexivity | now exists k].
Qed.

Lemma square_ownership_throws_iff_unoccupied_witness :
  (square_ownership initial_state 30 = Fault LogicError <->
   (forall p k, bit_at initial_state p k 30 = false)) /\
  (square_ownership initial_state 30 = Fault LogicError <->
   is_occupied initial_state 30 = Val false) /\
  ((exists p k, bit_at initial_state p k 30 = true) ->
   exists p, square_ownership initial_state 30 = Val p /\
             exists k, bit_at initial_state p k 30 = true).
Proof.
  apply (square_ownership_throws_iff_unoccupied initial_state 30). lia.
Defined.

Example square_ownership_examples :
  square_ownership initial_state 30 = Fault LogicError /\
  square_ownership initial_state 12 = Val WHITE /\
  square_ownership initial_state 59 = Val BLACK.
Proof. repeat split; reflexivity. Qed.

(** ** get_attack_map *)

Lemma get_attack_map_faults (indeterminate : bitmap) (fuel : nat)
      (s : GameState) (player : Player) :
  exists f, get_attack_map indeterminate fuel s player = Fault f.
Proof.
  unfold get_attack_map.
  destruct (attack_pieces indeterminate fuel s player all_pieces 0);
    simpl; eauto.
Qed.

(** C3: get_attack_map never returns a value, for any position and side:
    when its scan ends without a failed assertion, control reaches the end
    of the function, which has no return statement. *)
Theorem get_attack_map_returns_no_value :
  forall (indeterminate : bitmap) (fuel : nat) (s : GameState)
         (player : Player),
    is_val (get_attack_map indeterminate fuel s player) = false.
Proof.
  intros indeterminate fuel s player.
  destruct (get_attack_map_faults indeterminate fuel s player) as [f ->].
  reflexivity.
Qed.

(** On the starting position the scan of the white king (bit 4) asks for the
    attacks of square 5 and fails the assertion of span; with no piece to
    scan the function runs off its end. *)
Example get_attack_map_examples :
  get_attack_map 0 100 initial_state WHITE = Fault AssertionFailure /\
  get_attack_map 0 100 empty_board_state WHITE = Fault Undefined.
Proof. split; reflexivity. Qed.

(** ** span_pawn *)

(** C4: on the starting position the span of the white pawn on a2 (square 8)
    is the indeterminate initial content of span_mask or-ed with the numbers
    16 and 24 themselves, not with their bits: started from 0 the result is
    24 = 2^3 + 2^4 (d1 and e1), and neither a3 (bit 16) nor a4 (bit 24) is
    in it. *)
Theorem span_pawn_ors_square_numbers :
  (forall indeterminate : bitmap,
      span_pawn indeterminate initial_state 8 WHITE =
      Val (Z.lor (Z.lor indeterminate 16) 24)) /\
  span_pawn 0 initial_state 8 WHITE = Val 24 /\
  Z.testbit 24 16 = false /\ Z.testbit 24 24 = false /\
  Z.testbit 24 3 = true /\ Z.testbit 24 4 = true.
Proof.
  split; [intros indeterminate; reflexivity|].
  repeat split; reflexivity.
Qed.

(** ** Castling conditions *)

Lemma nonzero_land_lor (a b m : Z) :
  nonzero (Z.land (Z.lor a b) m) =
  nonzero (Z.land a m) || nonzero (Z.land b m).
Proof.
  rewrite Z.land_lor_distr_l. unfold nonzero.
  destruct (Z.eqb_spec (Z.land a m) 0) as [Ha|Ha];
    destruct (Z.eqb_spec (Z.land b m) 0) as [Hb|Hb];
    destruct (Z.eqb_spec (Z.lor (Z.land a m) (Z.land b m)) 0) as [H|H];
    try reflexivity; exfalso.
  - apply H. apply Z.lor_eq_0_iff. auto.
  - apply Z.lor_eq_0_iff in H. tauto.
  - apply Z.lor_eq_0_iff in H. tauto.
  - apply Z.lor_eq_0_iff in H. tauto.
Qed.

Lemma nonzero_pow2_land (m q : Z) :
  0 <= q -> nonzero (Z.land (2 ^ q) m) = Z.testbit m q.
Proof. intros Hq. rewrite Z.land_comm. now apply nonzero_land_pow2. Qed.

(** ** Checkmate and stalemate *)

(** C1: whenever is_check and get_valid_moves return, is_checkmate returns
    true exactly when the side to move is in check and the list of valid
    moves is NOT empty, and is_stalemate returns true exactly when the side
    is not in check and the list is NOT empty: no_valid_moves negates
    the emptiness test. *)
Theorem is_checkmate_requires_a_valid_move :
  forall (indeterminate : bitmap)
         (attack_map_of : GameState -> Player -> outcome bitmap)
         (fuel : nat) (s : GameState) (check : bool)
         (valid_moves : list Move),
    is_check attack_map_of s = Val check ->
    get_valid_moves indeterminate attack_map_of fuel s = Val valid_moves ->
    is_checkmate indeterminate attack_map_of fuel s =
      Val (check && negb (empty valid_moves)) /\
    is_stalemate indeterminate attack_map_of fuel s =
      Val (negb check && negb (empty valid_moves)).
Proof.
  intros indeterminate attack_map_of fuel s check valid_moves Hc Hm.
  unfold is_checkmate, is_stalemate, no_valid_moves.
  rewrite Hc, Hm. destruct check; split; reflexivity.
Qed.

(** With an attack map that covers a1 and no piece on the board, the side to
    move counts as in check and has no valid move; is_checkmate answers
    false. *)
Lemma is_checkmate_requires_a_valid_move_witness :
  is_check (fun _ _ => Val 1) empty_board_state = Val true /\
  get_valid_moves 0 (fun _ _ => Val 1) 10 empty_board_state = Val [] /\
  is_checkmate 0 (fun _ _ => Val 1) 10 empty_board_state = Val false /\
  is_stalemate 0 (fun _ _ => Val 1) 10 empty_board_state = Val false.
Proof.
  split; [reflexivity|]. split; [reflexivity|].
  apply (is_checkmate_requires_a_valid_move
           0 (fun _ _ => Val 1) 10 empty_board_state true []);
    reflexivity.
Defined.

(** On the starting position the enumerator stops at its first piece: the
    scan of the white king (bit 4) takes 5 for its square, and span asserts
    that a white king stands there.  This holds whatever the attack map. *)
Lemma get_valid_moves_initial_state
      (indeterminate : bitmap)
      (attack_map_of : GameState -> Player -> outcome bitmap) (fuel : nat) :
  get_valid_moves indeterminate attack_map_of (S fuel) initial_state =
  Fault AssertionFailure.
Proof. reflexivity. Qed.

(** ** Destinations of the jumping and the sliding spans *)

Lemma testbit_lor_pow2 (m c d : Z) :
  0 <= c -> Z.testbit (Z.lor m (2 ^ c)) d = true ->
  Z.testbit m d = true \/ d = c.
Proof.
  intros Hc H. rewrite Z.lor_spec in H.
  apply orb_true_iff in H. destruct H as [H|H]; [now left|].
  right. rewrite Z.pow2_bits_eqb in H by assumption.
  apply Z.eqb_eq in H. congruence.
Qed.

Lemma span_jumping_loop_bits (s : GameState) (start : square)
      (player : Player) (d : Z) :
  forall (offsets : list Z) (mask0 m : bitmap),
    span_jumping_loop s start player offsets mask0 = Val m ->
    Z.testbit m d = true ->
    Z.testbit mask0 d = true \/
    exists off, In off offsets /\ d = start + off /\ 0 <= d <= 63.
Proof.
  induction offsets as [|off rest IH]; intros mask0 m H Hd; simpl in H.
  - injection H as <-. now left.
  - assert (Hrest : forall mask1,
               span_jumping_loop s start player rest mask1 = Val m ->
               Z.testbit mask1 d = true \/
               exists o, In o (off :: rest) /\ d = start + o /\ 0 <= d <= 63).
    { intros mask1 H1. destruct (IH mask1 m H1 Hd) as [Hl|(o & Hin & Ho)].
      - now left.
      - right. exists o. split; [now right | assumption]. }
    destruct ((0 <=? start + off) && (start + off <=? 63)) eqn:Hrange.
    + bind_inv H. destruct v.
      * bind_inv H. apply shl1_inv in Hv0. destruct Hv0 as [Hc ->].
        destruct (Hrest _ H) as [Hl|Hr]; [|now right].
        apply testbit_lor_pow2 in Hl; [|lia].
        destruct Hl as [Hl| ->]; [now left|].
        right. exists off. split; [now left|]. split; [reflexivity | lia].
      * now apply Hrest.
    + now apply Hrest.
Qed.

Lemma ray_bits (s : GameState) (player : Player) (off d : Z) :
  forall (fuel : nat) (current : square) (mask0 m : bitmap),
    ray fuel s player off current mask0 = Val m ->
    Z.testbit m d = true ->
    Z.testbit mask0 d = true \/ exists n, on_ray current off n d.
Proof.
  induction fuel as [|fuel IH]; intros current mask0 m H Hd; simpl in H.
  - discriminate.
  - destruct ((current + off <? 0) || (63 <? current + off)) eqn:Hout.
    + injection H as <-. now left.
    + apply orb_false_iff in Hout. destruct Hout as [Hlo Hhi].
      apply Z.ltb_ge in Hlo. apply Z.ltb_ge in Hhi.
      bind_inv H. destruct v.
      * bind_inv H. destruct (negb (Player_eqb v player)).
        -- bind_inv H. apply shl1_inv in Hv1. destruct Hv1 as [_ ->].
           injection H as <-.
           apply testbit_lor_pow2 in Hd; [|lia].
           destruct Hd as [Hd| ->]; [now left|].
           right. exists 1. unfold on_ray.
           split; [lia|]. split; [lia|].
           intros j Hj. replace j with 1 by lia. lia.
        -- injection H as <-. now left.
      * destruct (IH _ _ _ H Hd) as [Hl|(n & Hn & Hdn & Hall)];
          [now left|].
        right. exists (n + 1). unfold on_ray.
        split; [lia|]. split; [lia|].
        intros j Hj. destruct (Z.eq_dec j 1) as [->|Hne]; [lia|].
        specialize (Hall (j - 1)).
        replace (current + off + (j - 1) * off) with (current + j * off)
          in Hall by lia.
        apply Hall. lia.
Qed.

Lemma span_sliding_loop_bits (s : GameState) (start : square)
      (player : Player) (d : Z) :
  forall (offsets : list Z) (mask0 m : bitmap),
    span_sliding_loop s start player offsets mask0 = Val m ->
    Z.testbit m d = true ->
    Z.testbit mask0 d = true \/
    exists off n, In off offsets /\ on_ray start off n d.
Proof.
  induction offsets as [|off rest IH]; intros mask0 m H Hd; cbn [span_sliding_loop] in H.
  - injection H as <-. now left.
  - bind_inv H.
    destruct (IH _ _ H Hd) as [Hl|(o & n & Hin & Hray)].
    + destruct (ray_bits s player off d _ _ _ _ Hv Hl) as [Hl'|(n & Hray)].
      * now left.
      * right. exists off, n. split; [now left | assumption].
    + right. exists o, n. split; [now right | assumption].
Qed.

(** The walk along a ray with a non-zero offset ends within 64 steps. *)
Lemma ray_total (s : GameState) (player : Player) (off : Z) :
  off <> 0 ->
  forall (fuel : nat) (current : square) (mask0 : bitmap),
    0 <= current <= 63 ->
    (0 < off -> 63 - current < Z.of_nat fuel) ->
    (off < 0 -> current < Z.of_nat fuel) ->
    exists m, ray fuel s player off current mask0 = Val m.
Proof.
  intros Hoff. induction fuel as [|fuel IH]; intros current mask0 Hc Hp Hn.
  - lia.
  - simpl.
    destruct ((current + off <? 0) || (63 <? current + off)) eqn:Hout;
      [eauto|].
    apply orb_false_iff in Hout. destruct Hout as [Hlo Hhi].
    apply Z.ltb_ge in Hlo. apply Z.ltb_ge in Hhi.
    destruct (is_occupied_total s (current + off)) as [occ Hocc]; [lia|].
    rewrite Hocc. simpl. destruct occ.
    + destruct (owner_of_occupied s (current + off)) as [p Hp']; [lia|auto|].
      rewrite Hp'. simpl. destruct (negb (Player_eqb p player)); [|eauto].
      rewrite shl1_val by lia. simpl. eauto.
    + apply IH; lia.
Qed.

Lemma In_firstn {A : Type} (x : A) :
  forall (n : nat) (l : list A), In x (firstn n l) -> In x l.
Proof.
  induction n as [|n IH]; intros [|y l] H; simpl in *; try tauto.
  destruct H as [H|H]; [now left | right; now apply IH].
Qed.

(** C5 (as amended): a destination that span adds for a king, queen, rook,
    bishop or knight is [start + n * off] for an offset [off] of the piece
    and a step count [n >= 1] ([n = 1] for king and knight) such that every
    square index on the way, [start + j * off] for [1 <= j <= n], lies in
    0..63.  The index range is the only board test. *)
Theorem span_destinations_stay_in_index_range :
  forall (indeterminate : bitmap) (s : GameState) (start : square)
         (player : Player) (piece_type : Piece) (m : bitmap) (d : Z),
    piece_type <> PAWN ->
    span indeterminate s start player piece_type = Val m ->
    Z.testbit indeterminate d = false ->
    Z.testbit m d = true ->
    exists off n,
      In off (offsets_of piece_type) /\
      (is_jumping piece_type = true -> n = 1) /\
      on_ray start off n d.
Proof.
  intros indeterminate s start player piece_type m d Hk H Hi Hd.
  unfold span in H. bind_inv H. bind_inv H.
  assert (Hjump : forall offsets k,
             span_jumping indeterminate s start player offsets k = Val m ->
             exists off n, In off offsets /\ n = 1 /\ on_ray start off n d).
  { intros offsets k Hj. unfold span_jumping in Hj.
    bind_inv Hj. bind_inv Hj.
    destruct (span_jumping_loop_bits s start player d _ _ _ Hj Hd)
      as [Hl|(off & Hin & -> & Hr)]; [congruence|].
    exists off, 1. split; [now apply In_firstn in Hin|].
    split; [reflexivity|]. unfold on_ray.
    split; [lia|]. split; [lia|].
    intros j Hj'. replace j with 1 by lia. lia. }
  assert (Hslide : forall offsets k,
             span_sliding indeterminate s start player offsets k = Val m ->
             exists off n, In off offsets /\ on_ray start off n d).
  { intros offsets k Hs. unfold span_sliding in Hs.
    bind_inv Hs. bind_inv Hs.
    destruct (span_sliding_loop_bits s start player d _ _ _ Hs Hd)
      as [Hl|(off & n & Hin & Hr)]; [congruence|].
    exists off, n. split; [now apply In_firstn in Hin | assumption]. }
  destruct piece_type; try (exfalso; now apply Hk);
    cbn [offsets_of is_jumping].
  - destruct (Hjump _ _ H) as (off & n & Hin & Hn & Hr).
    exists off, n. split; [exact Hin|].
    split; [intros _; exact Hn | exact Hr].
  - destruct (Hslide _ _ H) as (off & n & Hin & Hr).
    exists off, n. split; [exact Hin|]. split; [discriminate | exact Hr].
  - destruct (Hslide _ _ H) as (off & n & Hin & Hr).
    exists off, n. split; [exact Hin|]. split; [discriminate | exact Hr].
  - destruct (Hslide _ _ H) as (off & n & Hin & Hr).
    exists off, n. split; [exact Hin|]. split; [discriminate | exact Hr].
  - destruct (Hjump _ _ H) as (off & n & Hin & Hn & Hr).
    exists off, n. split; [exact Hin|].
    split; [intros _; exact Hn | exact Hr].
Qed.

Lemma span_destinations_stay_in_index_range_witness :
  span 0 king_on_a2 8 WHITE KING = Val 164483 /\
  Z.testbit 164483 7 = true /\
  exists off n,
    In off (offsets_of KING) /\
    (is_jumping KING = true -> n = 1) /\
    on_ray 8 off n 7.
Proof.
  split; [reflexivity|]. split; [reflexivity|].
  apply (span_destinations_stay_in_index_range
           0 king_on_a2 8 WHITE KING 164483 7);
    [discriminate | reflexivity | reflexivity | reflexivity].
Defined.

(** The king on a2 (file a) has h1 and h2 (file h) in its span, through the
    offsets -1 and +7; the rook on a3 has h2 in its span, through the
    offset -1. *)
Lemma span_wraps_from_file_a_to_file_h :
  exists m_king m_rook,
    span 0 king_on_a2 8 WHITE KING = Val m_king /\
    span 0 king_on_a2 16 WHITE ROOK = Val m_rook /\
    file 8 = 0 /\ file 16 = 0 /\
    Z.testbit m_king 7 = true /\ file 7 = 7 /\
    Z.testbit m_king 15 = true /\ file 15 = 7 /\
    Z.testbit m_rook 15 = true.
Proof.
  eexists. eexists.
  split; [reflexivity|]. split; [reflexivity|].
  repeat split; reflexivity.
Qed.

(** ** The sliding walk returns *)

Lemma span_sliding_loop_total (s : GameState) (start : square)
      (player : Player) :
  0 <= start <= 63 ->
  forall (offsets : list Z) (mask0 : bitmap),
    (forall off, In off offsets -> off <> 0) ->
    exists m, span_sliding_loop s start player offsets mask0 = Val m.
Proof.
  intros Hs. induction offsets as [|off rest IH]; intros mask0 Hnz;
    cbn [span_sliding_loop]; [eauto|].
  destruct (ray_total s player off (Hnz off (or_introl eq_refl))
                      64 start mask0 Hs) as [m Hm]; [lia | lia |].
  rewrite Hm. cbn [bind]. apply IH.
  intros o Ho. apply Hnz. now right.
Qed.

(** ** More on the bit primitives *)

Lemma lowest_set_bit_below (map : Z) (n : nat) :
  (forall j, 0 <= j < Z.of_nat n -> Z.testbit map j = false) \/
  (exists k, 0 <= k < Z.of_nat n /\ Z.testbit map k = true /\
             forall j, 0 <= j < k -> Z.testbit map j = false).
Proof.
  induction n as [|n [IH|(k & Hk & Hset & Hlow)]].
  - left. intros j Hj. lia.
  - destruct (Z.testbit map (Z.of_nat n)) eqn:Hn.
    + right. exists (Z.of_nat n). split; [lia|]. split; [assumption|].
      exact IH.
    + left. intros j Hj.
      destruct (Z.eq_dec j (Z.of_nat n)) as [->|Hne]; [assumption|].
      apply IH. lia.
  - right. exists k. split; [lia|]. auto.
Qed.

Lemma lowest_set_bit_exists (map : Z) :
  0 < map < 2 ^ 64 ->
  exists k, 0 <= k < 64 /\ Z.testbit map k = true /\
            forall j, 0 <= j < k -> Z.testbit map j = false.
Proof.
  intros Hm.
  destruct (lowest_set_bit_below map 64) as [Hnone|H]; [|exact H].
  exfalso.
  assert (Hlog : Z.log2 map < 64) by (apply Z.log2_lt_pow2; lia).
  pose proof (Z.log2_nonneg map) as Hnn.
  pose proof (Z.bit_log2 map (proj1 Hm)) as Hbit.
  rewrite (Hnone (Z.log2 map)) in Hbit by lia. discriminate.
Qed.

Lemma get_lowest_bit_at (map k : Z) :
  0 <= k < 64 -> 0 <= map < 2 ^ 64 -> Z.testbit map k = true ->
  (forall j, 0 <= j < k -> Z.testbit map j = false) ->
  get_lowest_bit map = k + 1.
Proof.
  intros Hk Hm Hset Hlow. unfold get_lowest_bit.
  rewrite (land_neg_isolates map k) by assumption.
  rewrite <- (Z2Nat.id k) by lia.
  rewrite lowest_bit_loop_pow2 by lia. lia.
Qed.

(** get_lowest_bit answers 0 exactly on the empty mask, and a number in
    1..64 on every other 64-bit mask: 0 is its sign for "no bit". *)
Theorem get_lowest_bit_zero_iff_empty :
  forall map : bitmap,
    0 <= map < 2 ^ 64 ->
    0 <= get_lowest_bit map <= 64 /\
    (get_lowest_bit map = 0 <-> map = 0).
Proof.
  intros map Hm. destruct (Z.eq_dec map 0) as [->|Hne].
  - split; [|split; reflexivity].
    change (get_lowest_bit 0) with 0. lia.
  - destruct (lowest_set_bit_exists map) as (k & Hk & Hset & Hlow); [lia|].
    rewrite (get_lowest_bit_at map k) by assumption.
    split; [lia|]. split; intros; lia.
Qed.

Lemma get_lowest_bit_zero_iff_empty_witness :
  0 <= get_lowest_bit 40 <= 64 /\ (get_lowest_bit 40 = 0 <-> 40 = 0).
Proof. apply (get_lowest_bit_zero_iff_empty 40). lia. Defined.

Lemma occupancy_map_bits (s : GameState) (q : Z) :
  Z.testbit (get_occupancy_map s) q = true <->
  exists p k, bit_at s p k q = true.
Proof.
  unfold get_occupancy_map, bit_at. cbn [all_pieces fold_left].
  rewrite !Z.lor_spec, Z.bits_0. cbn [orb].
  split.
  - intros H. repeat (apply orb_true_iff in H; destruct H as [H|H]);
      eauto.
  - intros (p & k & H). destruct p, k; rewrite H;
      repeat (rewrite ?orb_true_r, ?orb_true_l); reflexivity.
Qed.

(** For a square 0..63, is_occupied answers the bit of the occupancy map,
    which is set exactly when one of the twelve masks has it. *)
Theorem is_occupied_reads_occupancy_map :
  forall (s : GameState) (q : square),
    0 <= q <= 63 ->
    is_occupied s q = Val (Z.testbit (get_occupancy_map s) q) /\
    (Z.testbit (get_occupancy_map s) q = true <->
     exists p k, bit_at s p k q = true).
Proof.
  intros s q Hq. split; [|apply occupancy_map_bits].
  unfold is_occupied.
  destruct (is_occupied_from_cases s q all_pieces Hq)
    as [[Ho Hall]|(Ho & p & k & _ & Hbit)]; rewrite Ho; f_equal.
  - destruct (Z.testbit (get_occupancy_map s) q) eqn:Hocc; [|reflexivity].
    apply occupancy_map_bits in Hocc. destruct Hocc as (p & k & Hbit).
    rewrite (Hall p k (in_all_pieces k)) in Hbit. discriminate.
  - symmetry. apply occupancy_map_bits. eauto.
Qed.

Lemma is_occupied_reads_occupancy_map_witness :
  is_occupied initial_state 12 =
    Val (Z.testbit (get_occupancy_map initial_state) 12) /\
  (Z.testbit (get_occupancy_map initial_state) 12 = true <->
   exists p k, bit_at initial_state p k 12 = true).
Proof. apply (is_occupied_reads_occupancy_map initial_state 12). lia. Defined.

(** When only one side has a piece on a square 0..63, square_ownership
    returns that side. *)
Theorem square_ownership_of_sole_owner :
  forall (s : GameState) (q : square) (p : Player) (k : Piece),
    0 <= q <= 63 ->
    bit_at s p k q = true ->
    (forall k', bit_at s (other p) k' q = false) ->
    square_ownership s q = Val p.
Proof.
  intros s q p k Hq Hbit Hother. unfold square_ownership.
  destruct (square_ownership_from_cases s q all_pieces Hq)
    as [[_ Hall]|(p' & k' & Hv & _ & Hbit')].
  - rewrite (Hall p k (in_all_pieces k)) in Hbit. discriminate.
  - rewrite Hv. f_equal. specialize (Hother k').
    destruct p, p'; try reflexivity; cbn [other] in Hother; congruence.
Qed.

Lemma square_ownership_of_sole_owner_witness :
  square_ownership initial_state 59 = Val BLACK.
Proof.
  apply (square_ownership_of_sole_owner initial_state 59 BLACK QUEEN);
    [lia | reflexivity | intros k'; destruct k'; reflexivity].
Defined.

(** ** 64-bit values *)

Lemma u64_bits (x : Z) :
  0 <= x < 2 ^ 64 <->
  0 <= x /\ forall n, 64 <= n -> Z.testbit x n = false.
Proof.
  split.
  - intros Hx. split; [lia|]. intros n Hn.
    destruct (Z.eq_dec x 0) as [->|Hne]; [apply Z.bits_0|].
    apply Z.bits_above_log2; [lia|].
    assert (Z.log2 x < 64) by (apply Z.log2_lt_pow2; lia). lia.
  - intros [Hnn Hbits]. split; [assumption|].
    destruct (Z.eq_dec x 0) as [->|Hne]; [reflexivity|].
    apply Z.log2_lt_pow2; [lia|].
    destruct (Z.lt_ge_cases (Z.log2 x) 64) as [Hlt|Hge]; [assumption|].
    pose proof (Z.bit_log2 x ltac:(lia)) as Hbit.
    rewrite (Hbits _ Hge) in Hbit. discriminate.
Qed.

Lemma u64_pow2 (q : Z) : 0 <= q <= 63 -> 0 <= 2 ^ q < 2 ^ 64.
Proof.
  intros Hq. split; [apply Z.pow_nonneg; lia|].
  apply Z.pow_lt_mono_r; lia.
Qed.

Lemma u64_lxor (a b : Z) :
  0 <= a < 2 ^ 64 -> 0 <= b < 2 ^ 64 -> 0 <= Z.lxor a b < 2 ^ 64.
Proof.
  intros Ha Hb. apply u64_bits in Ha, Hb. apply u64_bits.
  destruct Ha as [Ha Ha'], Hb as [Hb Hb'].
  split; [apply Z.lxor_nonneg; tauto|].
  intros n Hn. now rewrite Z.lxor_spec, Ha', Hb'.
Qed.

(** ** What the jumping and the sliding spans contain *)

Lemma holds_val (s : GameState) (p : Player) (k : Piece) (start : square) :
  0 <= start <= 63 -> holds s p k start = Val (bit_at s p k start).
Proof.
  intros Hs. unfold holds, bit_at. rewrite shl1_val by assumption.
  cbn [bind]. now rewrite nonzero_land_pow2 by lia.
Qed.

Lemma enemy_of (p player : Player) :
  negb (Player_eqb p player) = true <-> p = other player.
Proof. destruct p, player; cbn; split; congruence. Qed.

Lemma free_or_enemy_spec (s : GameState) (d : square) (player : Player) :
  0 <= d <= 63 ->
  exists b, free_or_enemy s d player = Val b /\
            (b = true <-> no_friend_on s player d).
Proof.
  intros Hd. unfold free_or_enemy, no_friend_on.
  destruct (is_occupied_total s d Hd) as [occ Hocc]. rewrite Hocc.
  cbn [bind]. destruct occ; cbn [negb].
  - destruct (owner_of_occupied s d Hd Hocc) as [p Hp]. rewrite Hp.
    cbn [bind]. eexists. split; [reflexivity|].
    rewrite enemy_of. split.
    + intros ->. now right.
    + intros [H|H]; congruence.
  - exists true. split; [reflexivity|]. split; auto.
Qed.

Lemma span_jumping_loop_spec (s : GameState) (start : square)
      (player : Player) :
  forall (offsets : list Z) (mask0 : bitmap),
  exists m,
    span_jumping_loop s start player offsets mask0 = Val m /\
    forall d,
      Z.testbit m d = true <->
      (Z.testbit mask0 d = true \/
       exists off, In off offsets /\ d = start + off /\ 0 <= d <= 63 /\
                   no_friend_on s player d).
Proof.
  induction offsets as [|off rest IH]; intros mask0;
    cbn [span_jumping_loop].
  - exists mask0. split; [reflexivity|]. intros d. split; [now left|].
    intros [H|(off & [] & _)]. exact H.
  - assert (Hskip :
              ~ (0 <= start + off <= 63 /\ no_friend_on s player (start + off))
              ->
              exists m,
                span_jumping_loop s start player rest mask0 = Val m /\
                forall d,
                  Z.testbit m d = true <->
                  (Z.testbit mask0 d = true \/
                   exists o, In o (off :: rest) /\ d = start + o /\
                             0 <= d <= 63 /\ no_friend_on s player d)).
    { intros Hno. destruct (IH mask0) as (m & Hm & Hbits).
      exists m. split; [assumption|]. intros d. rewrite Hbits.
      split; intros [H|(o & Hin & Ho & Hr & Hf)]; try (now left).
      - right. exists o. split; [now right | auto].
      - destruct Hin as [<-|Hin].
        + exfalso. apply Hno. subst d. auto.
        + right. exists o. auto. }
    destruct ((0 <=? start + off) && (start + off <=? 63)) eqn:Hrange.
    + apply andb_true_iff in Hrange. destruct Hrange as [Hlo Hhi].
      apply Z.leb_le in Hlo. apply Z.leb_le in Hhi.
      destruct (free_or_enemy_spec s (start + off) player)
        as (b & Hb & Hiff); [lia|].
      rewrite Hb. cbn [bind]. destruct b.
      * rewrite shl1_val by lia. cbn [bind].
        destruct (IH (Z.lor mask0 (2 ^ (start + off)))) as (m & Hm & Hbits).
        exists m. split; [assumption|]. intros d. rewrite Hbits.
        rewrite Z.lor_spec, orb_true_iff, Z.pow2_bits_eqb by lia.
        split.
        -- intros [[H|H]|(o & Hin & Ho)].
           ++ now left.
           ++ apply Z.eqb_eq in H. right. exists off.
              split; [now left|]. split; [lia|]. split; [lia|].
              rewrite <- H. now apply Hiff.
           ++ right. exists o. split; [now right | assumption].
        -- intros [H|(o & [<-|Hin] & Ho & Hr)].
           ++ left. now left.
           ++ left. right. apply Z.eqb_eq. lia.
           ++ right. exists o. auto.
      * apply Hskip. intros [_ Hf]. apply Hiff in Hf. discriminate.
    + apply Hskip. intros [Hr _].
      apply andb_false_iff in Hrange.
      destruct Hrange as [H|H]; apply Z.leb_gt in H; lia.
Qed.

(** For a king or knight of [player] on [start], span_jumping returns the
    initial content of span_mask with exactly these bits added:
    [start + off] for each of the eight offsets whose sum lies in 0..63 and
    on which no piece of [player] stands. *)
Theorem span_jumping_destinations :
  forall (indeterminate : bitmap) (s : GameState) (start : square)
         (player : Player) (direction_offset : list Z) (piece_type : Piece),
    0 <= start <= 63 ->
    bit_at s player piece_type start = true ->
    exists m,
      span_jumping indeterminate s start player direction_offset piece_type
      = Val m /\
      forall d,
        Z.testbit m d = true <->
        (Z.testbit indeterminate d = true \/
         exists off, In off (firstn 8 direction_offset) /\ d = start + off /\
                     0 <= d <= 63 /\ no_friend_on s player d).
Proof.
  intros indeterminate s start player direction_offset piece_type Hs Hbit.
  unfold span_jumping. rewrite holds_val by assumption. rewrite Hbit.
  cbn [bind assert]. apply span_jumping_loop_spec.
Qed.

Lemma span_jumping_destinations_witness :
  exists m,
    span_jumping 0 king_on_a2 8 WHITE king_offsets KING = Val m /\
    forall d,
      Z.testbit m d = true <->
      (Z.testbit 0 d = true \/
       exists off, In off (firstn 8 king_offsets) /\ d = 8 + off /\
                   0 <= d <= 63 /\ no_friend_on king_on_a2 WHITE d).
Proof.
  apply (span_jumping_destinations 0 king_on_a2 8 WHITE king_offsets KING);
    [lia | reflexivity].
Defined.

Lemma ray_hits (s : GameState) (player : Player) (off d : Z) :
  forall (fuel : nat) (current : square) (mask0 m : bitmap),
    ray fuel s player off current mask0 = Val m ->
    Z.testbit m d = true ->
    Z.testbit mask0 d = true \/
    exists n, on_ray current off n d /\
              is_occupied s d = Val true /\
              square_ownership s d = Val (other player) /\
              forall j, 1 <= j < n ->
                        is_occupied s (current + j * off) = Val false.
Proof.
  induction fuel as [|fuel IH]; intros current mask0 m H Hd; simpl in H.
  - discriminate.
  - destruct ((current + off <? 0) || (63 <? current + off)) eqn:Hout.
    + injection H as <-. now left.
    + apply orb_false_iff in Hout. destruct Hout as [Hlo Hhi].
      apply Z.ltb_ge in Hlo. apply Z.ltb_ge in Hhi.
      bind_inv H. destruct v.
      * bind_inv H. destruct (negb (Player_eqb v player)) eqn:Hen.
        -- bind_inv H. apply shl1_inv in Hv1. destruct Hv1 as [_ ->].
           injection H as <-.
           apply testbit_lor_pow2 in Hd; [|lia].
           destruct Hd as [Hd| ->]; [now left|].
           right. exists 1. apply enemy_of in Hen. subst v.
           split; [|split; [assumption|split; [assumption|intros j Hj; lia]]].
           unfold on_ray. split; [lia|]. split; [lia|].
           intros j Hj. replace j with 1 by lia. lia.
        -- injection H as <-. now left.
      * destruct (IH _ _ _ H Hd)
          as [Hl|(n & (Hn & Hdn & Hall) & Hocc & Hown & Hfree)];
          [now left|].
        right. exists (n + 1).
        split; [|split; [assumption|split; [assumption|]]].
        -- unfold on_ray. split; [lia|]. split; [lia|].
           intros j Hj. destruct (Z.eq_dec j 1) as [->|Hne]; [lia|].
           specialize (Hall (j - 1)).
           replace (current + off + (j - 1) * off) with (current + j * off)
             in Hall by lia.
           apply Hall. lia.
        -- intros j Hj. destruct (Z.eq_dec j 1) as [->|Hne].
           ++ now rewrite Z.mul_1_l.
           ++ specialize (Hfree (j - 1)).
              replace (current + off + (j - 1) * off) with (current + j * off)
                in Hfree by lia.
              apply Hfree. lia.
Qed.

Lemma span_sliding_loop_hits (s : GameState) (start : square)
      (player : Player) (d : Z) :
  forall (offsets : list Z) (mask0 m : bitmap),
    span_sliding_loop s start player offsets mask0 = Val m ->
    Z.testbit m d = true ->
    Z.testbit mask0 d = true \/
    exists off n, In off offsets /\ on_ray start off n d /\
                  is_occupied s d = Val true /\
                  square_ownership s d = Val (other player) /\
                  forall j, 1 <= j < n ->
                            is_occupied s (start + j * off) = Val false.
Proof.
  induction offsets as [|off rest IH]; intros mask0 m H Hd;
    cbn [span_sliding_loop] in H.
  - injection H as <-. now left.
  - bind_inv H.
    destruct (IH _ _ H Hd) as [Hl|(o & n & Hin & Hrest)].
    + destruct (ray_hits s player off d _ _ _ _ Hv Hl) as [Hl'|(n & Hray)].
      * now left.
      * right. exists off, n. split; [now left | assumption].
    + right. exists o, n. split; [now right | assumption].
Qed.

(** Every square that span_sliding adds to the span holds a piece of the
    other side, reached along one of the piece's offsets over squares that
    are all empty: a queen, rook or bishop gets no empty square as a
    destination. *)
Theorem span_sliding_adds_enemy_squares_only :
  forall (indeterminate : bitmap) (s : GameState) (start : square)
         (player : Player) (direction_offset : list Z) (piece_type : Piece)
         (m : bitmap) (d : Z),
    span_sliding indeterminate s start player direction_offset piece_type
    = Val m ->
    Z.testbit indeterminate d = false ->
    Z.testbit m d = true ->
    exists off n,
      In off (firstn (num_directions piece_type) direction_offset) /\
      on_ray start off n d /\
      is_occupied s d = Val true /\
      square_ownership s d = Val (other player) /\
      forall j, 1 <= j < n -> is_occupied s (start + j * off) = Val false.
Proof.
  intros indeterminate s start player direction_offset piece_type m d H Hi Hd.
  unfold span_sliding in H. bind_inv H. bind_inv H.
  destruct (span_sliding_loop_hits s start player d _ _ _ H Hd)
    as [Hl|Hr]; [congruence | exact Hr].
Qed.

Lemma span_sliding_adds_enemy_squares_only_witness :
  span_sliding 0 rook_on_a1 0 WHITE rook_offsets ROOK = Val (2 ^ 24) /\
  exists off n,
    In off (firstn (num_directions ROOK) rook_offsets) /\
    on_ray 0 off n 24 /\
    is_occupied rook_on_a1 24 = Val true /\
    square_ownership rook_on_a1 24 = Val (other WHITE) /\
    forall j, 1 <= j < n -> is_occupied rook_on_a1 (0 + j * off) = Val false.
Proof.
  split; [reflexivity|].
  apply (span_sliding_adds_enemy_squares_only
           0 rook_on_a1 0 WHITE rook_offsets ROOK (2 ^ 24) 24);
    reflexivity.
Defined.

(** ** The spans return *)

Lemma span_sliding_returns (indeterminate : bitmap) (s : GameState)
      (start : square) (player : Player) (offsets : list Z) (k : Piece) :
  0 <= start <= 63 ->
  bit_at s player k start = true ->
  (forall off, In off (firstn (num_directions k) offsets) -> off <> 0) ->
  exists m, span_sliding indeterminate s start player offsets k = Val m.
Proof.
  intros Hs Hbit Hnz. unfold span_sliding.
  rewrite holds_val by assumption. rewrite Hbit. cbn [bind assert].
  now apply span_sliding_loop_total.
Qed.

Lemma span_jumping_returns (indeterminate : bitmap) (s : GameState)
      (start : square) (player : Player) (offsets : list Z) (k : Piece) :
  0 <= start <= 63 ->
  bit_at s player k start = true ->
  exists m, span_jumping indeterminate s start player offsets k = Val m.
Proof.
  intros Hs Hbit. unfold span_jumping.
  rewrite holds_val by assumption. rewrite Hbit. cbn [bind assert].
  destruct (span_jumping_loop_spec s start player (firstn 8 offsets)
                                   indeterminate) as (m & Hm & _).
  now exists m.
Qed.

(** For a king, queen, rook, bishop or knight that stands on a square
    0..63, both in the masks of [player] and in those of the side to move,
    span returns a mask: no assertion fails, square_ownership does not
    throw, and every sliding walk ends within its 64 steps. *)
Theorem span_returns_for_a_piece_on_the_board :
  forall (indeterminate : bitmap) (s : GameState) (start : square)
         (player : Player) (piece_type : Piece),
    piece_type <> PAWN ->
    0 <= start <= 63 ->
    bit_at s (to_move s) piece_type start = true ->
    bit_at s player piece_type start = true ->
    exists m, span indeterminate s start player piece_type = Val m.
Proof.
  intros indeterminate s start player piece_type Hk Hs Hto Hpl.
  unfold span. rewrite holds_val by assumption. rewrite Hto.
  cbn [bind assert].
  destruct piece_type; try (exfalso; now apply Hk).
  - now apply span_jumping_returns.
  - apply span_sliding_returns; try assumption.
    intros off Hin. cbn in Hin.
    repeat (destruct Hin as [<-|Hin]; [discriminate|]). destruct Hin.
  - apply span_sliding_returns; try assumption.
    intros off Hin. cbn in Hin.
    repeat (destruct Hin as [<-|Hin]; [discriminate|]). destruct Hin.
  - apply span_sliding_returns; try assumption.
    intros off Hin. cbn in Hin.
    repeat (destruct Hin as [<-|Hin]; [discriminate|]). destruct Hin.
  - now apply span_jumping_returns.
Qed.

Lemma span_returns_for_a_piece_on_the_board_witness :
  exists m, span 0 initial_state 3 WHITE QUEEN = Val m.
Proof.
  apply (span_returns_for_a_piece_on_the_board 0 initial_state 3 WHITE QUEEN);
    [discriminate | lia | reflexivity | reflexivity].
Defined.

(** ** The pawn span *)

Lemma is_occupied_val_range (s : GameState) (q : square) (b : bool) :
  is_occupied s q = Val b -> 0 <= q <= 63.
Proof.
  unfold is_occupied. cbn [all_pieces is_occupied_from]. intros H.
  bind_inv H. now apply shl1_inv in Hv.
Qed.

Lemma square_number_high_bits (x d : Z) :
  0 <= x <= 63 -> 6 <= d -> Z.testbit (u64 x) d = false.
Proof.
  intros Hx Hd. unfold u64. rewrite Z.mod_small by lia.
  destruct (Z.eq_dec x 0) as [->|Hne]; [apply Z.bits_0|].
  apply Z.bits_above_log2; [lia|].
  assert (Z.log2 x < 6) by (apply Z.log2_lt_pow2; lia). lia.
Qed.

Lemma pawn_captures_high_bits (s : GameState) (start : square)
      (player : Player) (d : Z) :
  6 <= d ->
  forall (offsets : list Z) (mask0 m : bitmap),
    pawn_captures s start player offsets mask0 = Val m ->
    Z.testbit m d = Z.testbit mask0 d.
Proof.
  intros Hd. induction offsets as [|off rest IH]; intros mask0 m H;
    cbn [pawn_captures] in H.
  - now injection H as <-.
  - apply bind_val in H. destruct H as (enemy & Henemy & H).
    assert (Hr : 0 <= start + direction_modifier player * off <= 63).
    { unfold holds_enemy in Henemy. apply bind_val in Henemy.
      destruct Henemy as (occ & Hocc & _).
      now apply is_occupied_val_range in Hocc. }
    destruct (enemy || (start + direction_modifier player * off
                        =? en_passant_square s)).
    + rewrite (IH _ _ H), Z.lor_spec.
      rewrite square_number_high_bits by assumption. apply orb_false_r.
    + apply (IH _ _ H).
Qed.

(** Whatever the position, span_pawn changes none of the bits 6..63 of the
    initial content of span_mask: the numbers it ors in are squares, below
    64.  No square of the third rank or above enters a pawn's span through
    span_pawn. *)
Theorem span_pawn_sets_low_bits_only :
  forall (indeterminate : bitmap) (s : GameState) (start : square)
         (player : Player) (m : bitmap) (d : Z),
    6 <= d ->
    span_pawn indeterminate s start player = Val m ->
    Z.testbit m d = Z.testbit indeterminate d.
Proof.
  intros indeterminate s start player m d Hd H.
  unfold span_pawn in H.
  apply bind_val in H. destruct H as (here & _ & H).
  apply bind_val in H. destruct H as (u & _ & H).
  apply bind_val in H. destruct H as (occ & Hocc & H).
  pose proof (is_occupied_val_range _ _ _ Hocc) as Hr1.
  apply bind_val in H. destruct H as (caught & Hcaught & H).
  apply (pawn_captures_high_bits s start player d Hd) in Hcaught.
  assert (Hfirst : Z.testbit caught d = Z.testbit indeterminate d).
  { rewrite Hcaught. destruct (negb occ); [|reflexivity].
    rewrite Z.lor_spec, square_number_high_bits by assumption.
    apply orb_false_r. }
  destruct (on_starting_rank player start); [|congruence].
  destruct (negb occ); [|congruence].
  apply bind_val in H. destruct H as (occ2 & Hocc2 & H).
  pose proof (is_occupied_val_range _ _ _ Hocc2) as Hr2.
  injection H as <-.
  destruct (negb occ2); [|assumption].
  rewrite Z.lor_spec, square_number_high_bits by assumption.
  now rewrite orb_false_r.
Qed.

Lemma span_pawn_sets_low_bits_only_witness :
  exists m,
    span_pawn 0 initial_state 12 WHITE = Val m /\
    Z.testbit m 20 = Z.testbit 0 20.
Proof.
  eexists. split; [reflexivity|].
  apply (span_pawn_sets_low_bits_only 0 initial_state 12 WHITE);
    [lia | reflexivity].
Defined.

(** ** The scans of get_valid_moves *)

Lemma location_scan_never_returns
      (indeterminate : bitmap)
      (attack_map_of : GameState -> Player -> outcome bitmap)
      (fuel_span : nat) (s : GameState) (piece_type : Piece) :
  forall (fuel : nat) (piece_locations : bitmap) (valid_moves : list Move),
    0 < piece_locations < 2 ^ 64 ->
    is_val (location_scan indeterminate attack_map_of fuel fuel_span s
                          piece_type piece_locations valid_moves) = false.
Proof.
  induction fuel as [|fuel IH]; intros pl vm Hpl; [reflexivity|].
  cbn [location_scan].
  destruct (Z.ltb_spec 0 pl) as [_|Hle]; [|lia].
  destruct (lowest_set_bit_exists pl Hpl) as (k & Hk & Hset & Hlow).
  rewrite (get_lowest_bit_at pl k) by (assumption || lia).
  destruct (span indeterminate s (k + 1) (to_move s) piece_type)
    as [sp|]; [|reflexivity].
  cbn [bind].
  destruct (span_scan attack_map_of fuel_span s (k + 1) piece_type sp vm)
    as [vm'|]; [|reflexivity].
  cbn [bind].
  destruct (Z.eq_dec k 63) as [->|Hne]; [reflexivity|].
  rewrite shl1_val by lia. cbn [bind]. apply IH.
  assert (Hx : 0 <= Z.lxor pl (2 ^ (k + 1)) < 2 ^ 64)
    by (apply u64_lxor; [lia | apply u64_pow2; lia]).
  assert (Hbit : Z.testbit (Z.lxor pl (2 ^ (k + 1))) k = true).
  { rewrite Z.lxor_spec, Hset, Z.pow2_bits_eqb by lia.
    destruct (Z.eqb_spec (k + 1) k); [lia | reflexivity]. }
  destruct (Z.eq_dec (Z.lxor pl (2 ^ (k + 1))) 0) as [H0|H0]; [|lia].
  rewrite H0, Z.bits_0 in Hbit. discriminate.
Qed.

Lemma piece_scan_returns_unchanged
      (indeterminate : bitmap)
      (attack_map_of : GameState -> Player -> outcome bitmap)
      (fuel : nat) (s : GameState) :
  well_formed s ->
  forall (l : list Piece) (vm0 vm : list Move),
    piece_scan indeterminate attack_map_of fuel s l vm0 = Val vm ->
    vm = vm0 /\ forall k, In k l -> mask (pieces s) (to_move s) k = 0.
Proof.
  intros Hwf. induction l as [|i rest IH]; intros vm0 vm H;
    cbn [piece_scan] in H.
  - injection H as <-. split; [reflexivity | intros k []].
  - destruct (Z.eq_dec (mask (pieces s) (to_move s) i) 0) as [H0|H0].
    + rewrite H0 in H. destruct fuel as [|fuel]; [discriminate|].
      cbn [location_scan] in H. change (0 <? 0) with false in H.
      cbn [bind] in H. destruct (IH _ _ H) as [-> Hall].
      split; [reflexivity|]. intros k [<-|Hin]; auto.
    + pose proof (location_scan_never_returns
                    indeterminate attack_map_of fuel s i fuel
                    (mask (pieces s) (to_move s) i) vm0) as Hnever.
      destruct (location_scan indeterminate attack_map_of fuel fuel s i
                              (mask (pieces s) (to_move s) i) vm0);
        [|discriminate].
      specialize (Hwf (to_move s) i).
      discriminate Hnever. lia.
Qed.

(** On a position with 64-bit masks get_valid_moves returns a list only
    when the side to move has no piece at all, and the list then holds
    castling moves only: the scan of a non-empty mask clears the bit above
    the one get_lowest_bit has found, so it never comes to an end. *)
Theorem get_valid_moves_returns_only_without_pieces :
  forall (indeterminate : bitmap)
         (attack_map_of : GameState -> Player -> outcome bitmap)
         (fuel : nat) (s : GameState) (valid_moves : list Move),
    well_formed s ->
    get_valid_moves indeterminate attack_map_of fuel s = Val valid_moves ->
    (forall k, mask (pieces s) (to_move s) k = 0) /\
    (forall m, In m valid_moves ->
               exists variant, m = CastlingMove variant (to_move s)).
Proof.
  intros indeterminate attack_map_of fuel s valid_moves Hwf H.
  unfold get_valid_moves in H.
  apply bind_val in H. destruct H as (vm & Hvm & H).
  destruct (piece_scan_returns_unchanged indeterminate attack_map_of fuel s
                                         Hwf _ _ _ Hvm) as [-> Hall].
  split; [intros k; apply Hall, in_all_pieces|].
  apply bind_val in H. destruct H as (king_side & _ & H).
  apply bind_val in H. destruct H as (queen_side & _ & H).
  injection H as <-.
  intros m Hin. destruct king_side, queen_side; cbn in Hin;
    repeat (destruct Hin as [<-|Hin]; [eauto|]); destruct Hin.
Qed.

Lemma empty_board_with_rights_well_formed :
  well_formed empty_board_with_rights.
Proof. intros p k. destruct p, k; cbv; split; congruence. Qed.

Lemma get_valid_moves_returns_only_without_pieces_witness :
  get_valid_moves 0 (fun _ _ => Val 0) 1 empty_board_with_rights =
    Val [CastlingMove KING_SIDE WHITE; CastlingMove QUEEN_SIDE WHITE] /\
  (forall k, mask (pieces empty_board_with_rights)
                  (to_move empty_board_with_rights) k = 0) /\
  (forall m,
      In m [CastlingMove KING_SIDE WHITE; CastlingMove QUEEN_SIDE WHITE] ->
      exists variant,
        m = CastlingMove variant (to_move empty_board_with_rights)).
Proof.
  split; [reflexivity|].
  apply (get_valid_moves_returns_only_without_pieces
           0 (fun _ _ => Val 0) 1 empty_board_with_rights);
    [exact empty_board_with_rights_well_formed | reflexivity].
Defined.

(** ** The castling conditions, all four cases *)

(** Both castling tests answer from three things only: the bits of the
    opponent's attack map on the listed passing squares (two squares for
    Black's king side, three otherwise), the bits of the occupancy map on
    the squares between king and rook, and the mover's right.  Neither
    looks at whether the king or the rook stands on its home square. *)
Theorem castling_conditions_read_maps_and_right_only :
  forall (attack_map_of : GameState -> Player -> outcome bitmap)
         (s : GameState) (attack_map : bitmap),
    attack_map_of s (other (to_move s)) = Val attack_map ->
    king_side_castling_conditions_satisfied attack_map_of s =
      Val (castling_allowed attack_map (get_occupancy_map s)
                            (flag (can_castle_king_side s) (to_move s))
                            (to_move s) KING_SIDE) /\
    queen_side_castling_conditions_satisfied attack_map_of s =
      Val (castling_allowed attack_map (get_occupancy_map s)
                            (flag (can_castle_queen_side s) (to_move s))
                            (to_move s) QUEEN_SIDE).
Proof.
  intros attack_map_of s attack_map Ham.
  unfold king_side_castling_conditions_satisfied,
    queen_side_castling_conditions_satisfied, castling_allowed.
  destruct (to_move s); cbn [other] in *; rewrite Ham;
    cbn [bind passing_squares_of in_between_squares_of existsb];
    rewrite !nonzero_land_lor, !nonzero_pow2_land by lia;
    rewrite !orb_false_r; split;
    repeat match goal with
           | |- context [Z.testbit ?a ?b] => destruct (Z.testbit a b)
           | |- context [flag ?a ?b] => destruct (flag a b)
           end; reflexivity.
Qed.

Lemma castling_conditions_read_maps_and_right_only_witness :
  king_side_castling_conditions_satisfied (fun _ _ => Val 0)
                                          empty_board_with_rights =
    Val (castling_allowed 0 (get_occupancy_map empty_board_with_rights)
                          (flag (can_castle_king_side empty_board_with_rights)
                                (to_move empty_board_with_rights))
                          (to_move empty_board_with_rights) KING_SIDE) /\
  queen_side_castling_conditions_satisfied (fun _ _ => Val 0)
                                           empty_board_with_rights =
    Val (castling_allowed 0 (get_occupancy_map empty_board_with_rights)
                          (flag (can_castle_queen_side empty_board_with_rights)
                                (to_move empty_board_with_rights))
                          (to_move empty_board_with_rights) QUEEN_SIDE).
Proof.
  apply (castling_conditions_read_maps_and_right_only
           (fun _ _ => Val 0) empty_board_with_rights 0).
  reflexivity.
Defined.

(** ** The scan of get_attack_map *)

Lemma attack_scan_never_returns (indeterminate : bitmap) (s : GameState)
      (player : Player) (piece_type : Piece) :
  forall (fuel : nat) (piece_locations attack_map : bitmap),
    0 < piece_locations < 2 ^ 64 ->
    is_val (attack_scan indeterminate fuel s player piece_type
                        piece_locations attack_map) = false.
Proof.
  induction fuel as [|fuel IH]; intros pl am Hpl; [reflexivity|].
  cbn [attack_scan].
  destruct (Z.ltb_spec 0 pl) as [_|Hle]; [|lia].
  destruct (lowest_set_bit_exists pl Hpl) as (k & Hk & Hset & Hlow).
  rewrite (get_lowest_bit_at pl k) by (assumption || lia).
  destruct (attacking indeterminate s (k + 1) player piece_type)
    as [pa|]; [|reflexivity].
  cbn [bind].
  destruct (Z.eq_dec k 63) as [->|Hne]; [reflexivity|].
  rewrite shl1_val by lia. cbn [bind]. apply IH.
  assert (Hx : 0 <= Z.lxor pl (2 ^ (k + 1)) < 2 ^ 64)
    by (apply u64_lxor; [lia | apply u64_pow2; lia]).
  assert (Hbit : Z.testbit (Z.lxor pl (2 ^ (k + 1))) k = true).
  { rewrite Z.lxor_spec, Hset, Z.pow2_bits_eqb by lia.
    destruct (Z.eqb_spec (k + 1) k); [lia | reflexivity]. }
  destruct (Z.eq_dec (Z.lxor pl (2 ^ (k + 1))) 0) as [H0|H0]; [|lia].
  rewrite H0, Z.bits_0 in Hbit. discriminate.
Qed.

Lemma attack_pieces_returns_unchanged (indeterminate : bitmap) (fuel : nat)
      (s : GameState) (player : Player) :
  well_formed s ->
  forall (l : list Piece) (am0 am : bitmap),
    attack_pieces indeterminate fuel s player l am0 = Val am ->
    am = am0 /\ forall k, In k l -> mask (pieces s) player k = 0.
Proof.
  intros Hwf. induction l as [|i rest IH]; intros am0 am H;
    cbn [attack_pieces] in H.
  - injection H as <-. split; [reflexivity | intros k []].
  - destruct (Z.eq_dec (mask (pieces s) player i) 0) as [H0|H0].
    + rewrite H0 in H. destruct fuel as [|fuel]; [discriminate|].
      cbn [attack_scan] in H. change (0 <? 0) with false in H.
      cbn [bind] in H. destruct (IH _ _ H) as [-> Hall].
      split; [reflexivity|]. intros k [<-|Hin]; auto.
    + pose proof (attack_scan_never_returns
                    indeterminate s player i fuel
                    (mask (pieces s) player i) am0) as Hnever.
      destruct (attack_scan indeterminate fuel s player i
                            (mask (pieces s) player i) am0);
        [|discriminate].
      specialize (Hwf player i).
      discriminate Hnever. lia.
Qed.

(** On a position with 64-bit masks the loop of get_attack_map comes to its
    end only for a side without any piece, with the accumulated attack map
    still 0: for a non-empty mask the scan keeps toggling the bit above the
    one it has found. *)
Theorem attack_scan_ends_only_without_pieces :
  forall (indeterminate : bitmap) (fuel : nat) (s : GameState)
         (player : Player) (attack_map : bitmap),
    well_formed s ->
    attack_pieces indeterminate fuel s player all_pieces 0 = Val attack_map ->
    attack_map = 0 /\ forall k, mask (pieces s) player k = 0.
Proof.
  intros indeterminate fuel s player attack_map Hwf H.
  destruct (attack_pieces_returns_unchanged indeterminate fuel s player Hwf
                                            _ _ _ H) as [-> Hall].
  split; [reflexivity|]. intros k. apply Hall, in_all_pieces.
Qed.

Lemma attack_scan_ends_only_without_pieces_witness :
  attack_pieces 0 1 empty_board_with_rights BLACK all_pieces 0 = Val 0 /\
  0 = 0 /\ forall k, mask (pieces empty_board_with_rights) BLACK k = 0.
Proof.
  split; [reflexivity|].
  apply (attack_scan_ends_only_without_pieces 0 1 empty_board_with_rights
                                              BLACK 0);
    [exact empty_board_with_rights_well_formed | reflexivity].
Defined.

(** ** Castling in the enumerator *)

(** The value get_attack_map is declared to return is an [int]; converted
    to [bitmap] at the call, its bits 31..63 all equal its sign. *)
Lemma u64_int_high_bits (r i : Z) :
  - 2 ^ 31 <= r < 2 ^ 31 -> 31 <= i < 64 ->
  Z.testbit (u64 r) i = (r <? 0).
Proof.
  intros Hr Hi. unfold u64. rewrite Z.mod_pow2_bits_low by lia.
  destruct (Z.ltb_spec r 0) as [Hneg|Hpos].
  - apply Z.bits_above_log2_neg; [assumption|].
    destruct (Z.eq_dec r (-1)) as [->|Hne]; [cbn; lia|].
    assert (Z.log2 (Z.pred (- r)) < 31) by (apply Z.log2_lt_pow2; lia).
    lia.
  - destruct (Z.eq_dec r 0) as [->|Hne]; [apply Z.bits_0|].
    apply Z.bits_above_log2; [assumption|].
    assert (Z.log2 r < 31) by (apply Z.log2_lt_pow2; lia). lia.
Qed.

(** So for Black's king side the test of the attack map on e8 and f8, the
    two squares the source lists, answers as the test on e8, f8 and g8. *)
Lemma black_king_side_test_on_an_int
      (attack_map_of : GameState -> Player -> outcome bitmap)
      (s : GameState) (r : Z) :
  to_move s = BLACK ->
  - 2 ^ 31 <= r < 2 ^ 31 ->
  attack_map_of s WHITE = Val (u64 r) ->
  king_side_castling_conditions_satisfied attack_map_of s =
  Val (negb (Z.testbit (u64 r) 60 || Z.testbit (u64 r) 61
             || Z.testbit (u64 r) 62)
       && negb (Z.testbit (get_occupancy_map s) 61
                || Z.testbit (get_occupancy_map s) 62)
       && flag (can_castle_king_side s) BLACK).
Proof.
  intros Hto Hr Ham.
  unfold king_side_castling_conditions_satisfied.
  rewrite Hto. cbn [other]. rewrite Ham. cbn [bind].
  rewrite !nonzero_land_lor, !nonzero_pow2_land by lia.
  rewrite !u64_int_high_bits by lia.
  destruct (r <? 0), (Z.testbit (get_occupancy_map s) 61),
    (Z.testbit (get_occupancy_map s) 62),
    (flag (can_castle_king_side s) BLACK); reflexivity.
Qed.

(** C6: on a position with 64-bit masks in which the side to move has a
    king, get_valid_moves returns no list, whatever it reads from
    get_attack_map: the scan of the king mask takes the square above the
    king for its square and never reaches the two castling tests.  No
    castling move is included where the conditions of castling hold. *)
Theorem get_valid_moves_never_reaches_castling :
  forall (indeterminate : bitmap)
         (attack_map_of : GameState -> Player -> outcome bitmap)
         (fuel : nat) (s : GameState),
    well_formed s ->
    0 < mask (pieces s) (to_move s) KING ->
    is_val (get_valid_moves indeterminate attack_map_of fuel s) = false.
Proof.
  intros indeterminate attack_map_of fuel s Hwf Hking.
  unfold get_valid_moves.
  destruct (piece_scan indeterminate attack_map_of fuel s all_pieces [])
    as [vm|] eqn:Hscan; [|reflexivity].
  destruct (piece_scan_returns_unchanged indeterminate attack_map_of fuel s
                                         Hwf _ _ _ Hscan) as [_ Hall].
  rewrite (Hall KING (in_all_pieces KING)) in Hking. lia.
Qed.

Lemma black_may_castle_well_formed : well_formed black_may_castle.
Proof. intros p k. destruct p, k; cbv; split; congruence. Qed.

(** In [black_may_castle] both castling tests of the king side pass (the
    right is held, f8 and g8 are empty, nothing is attacked), and the
    enumerator stops at the assertion of span. *)
Lemma get_valid_moves_never_reaches_castling_witness :
  king_side_castling_conditions_satisfied (fun _ _ => Val 0)
                                          black_may_castle = Val true /\
  get_valid_moves 0 (fun _ _ => Val 0) 10 black_may_castle =
    Fault AssertionFailure /\
  is_val (get_valid_moves 0 (fun _ _ => Val 0) 10 black_may_castle) = false.
Proof.
  split; [reflexivity|]. split; [reflexivity|].
  apply (get_valid_moves_never_reaches_castling
           0 (fun _ _ => Val 0) 10 black_may_castle);
    [exact black_may_castle_well_formed | reflexivity].
Defined.

(** ** transform *)

(** Each of the three bodies ends in the constructor call on the cast
    array, so no transform returns a position. *)
Lemma transform_returns_no_position (m : Move) (s : GameState) :
  is_val (transform m s) = false.
Proof.
  destruct m as [start finish piece mover is_capture
                | start finish mover promoted_piece
                | variant mover];
    cbn [transform];
    unfold NormalMove_transform, PromotionMove_transform,
      CastlingMove_transform, GameState_from_cast;
    try destruct variant;
    repeat match goal with
           | |- context [assert ?b] => destruct b; cbn [assert bind]
           | |- context [bind ?c _] => destruct c; cbn [bind]
           end;
    reflexivity.
Qed.

End Chess.
